(** * hostpolicy dependency resolver ([deps_resolver.h])

    A shallow embedding of [deps_resolver_t] from
    [src/native/corehost/hostpolicy/deps_resolver.h], and the properties
    its specification states about it.

    Conventions.
    - [pal::string_t] is [string]; [_X("...")] is a string literal.
    - An output parameter that every path of a function assigns is the
      function's result.
    - [std::unique_ptr<T>] is [option T]; dereferencing a null pointer, and
      [back()] on an empty string, have no defined result: the function
      returns [None] there.
    - [std::unordered_set<pal::string_t>] is [gset string]. *)

From Stdlib Require Import Ascii String.
From stdpp Require Import base option list strings gmap.

Set Warnings "-clear-no-such-hyp".

Local Open Scope string_scope.
Local Open Scope list_scope.
Local Open Scope nat_scope.

(** ** Platform abstraction ([pal.h], [utils.h])

    The header uses these without defining them; they are parameters of the
    development. *)

Class Pal := {
  DIR_SEPARATOR : ascii;
  PATH_SEPARATOR : ascii;
  append_path : string → string → string;
  get_directory : string → string;
}.

(** [std::basic_string::back()]: the last character; undefined on the empty
    string. *)
Fixpoint back (s : string) : option ascii :=
  match s with
  | EmptyString => None
  | String c rest =>
      match rest with
      | EmptyString => Some c
      | String _ _ => back rest
      end
  end.

(** [s.append(1, c)] *)
Definition append_char (s : string) (c : ascii) : string :=
  s +:+ String c EmptyString.

(** ** Data model *)

(** Modelled from the spec: [host_mode_t] is declared outside this header;
    the launch arguments name three operating modes: muxer-launched host,
    normal application host, embedding-library host. *)
Inductive host_mode_t := muxer | apphost | libhost.

#[global] Instance host_mode_eq_dec : EqDecision host_mode_t.
Proof. solve_decision. Defined.

(** Modelled from the spec: [deps_entry_t::asset_types] is declared in
    [deps_entry.h]. An asset is a managed library, a resource library or a
    native library. *)
Module asset_types.
Inductive t := runtime | resources | native.
End asset_types.

#[global] Instance asset_types_eq_dec : EqDecision asset_types.t.
Proof. solve_decision. Defined.

(** Modelled from the spec: [deps_asset_t] and [deps_entry_t] are declared in
    [deps_entry.h]. A Dependency Entry has a logical name, an asset kind, a
    relative path within its layer's base directory, an owning library
    identity (name and version) and an optional culture. *)
Record deps_asset_t := {
  asset_name : string;
  relative_path : string;
}.

Record deps_entry_t := {
  asset : deps_asset_t;
  asset_type : asset_types.t;
  library_name : string;
  library_version : string;
  culture : option string;
}.

Record deps_resolved_asset_t := {
  resolved_asset : deps_asset_t;
  resolved_path : string;
}.

Record probe_paths_t := {
  tpa : string;
  native : string;
  resources : string;
  coreclr : string;
}.

(** [deps_json_t::rid_fallback_graph_t]: each runtime identifier with its
    fallbacks, most specific first. *)
Definition rid_fallback_graph_t := list (string * list string).

(** Modelled from the spec: [deps_json_t] is declared in [deps_format.h]. A
    manifest object exposes whether its backing file exists, whether it
    parsed, its file path, its entries in declared order and its resolved
    RID fallback list. *)
Record deps_json_t := {
  get_deps_file : string;
  exists_ : bool;
  is_valid : bool;
  dj_is_framework_dependent : bool;
  get_rid_fallback_graph : rid_fallback_graph_t;
  dj_entries : list deps_entry_t;
}.

(** What reading and parsing a manifest file yields; the parser is an
    external collaborator. *)
Record deps_file_t := {
  file_present : bool;
  file_parses : bool;
  file_rid_fallback_graph : rid_fallback_graph_t;
  file_entries : list deps_entry_t;
}.

(** [fx_definition_t], as far as the header uses it. *)
Record fx_definition_t := {
  get_name : string;
  get_dir : string;
}.

(** Modelled from the spec: [probe_config_t] is declared outside this
    header. A Probe Configuration is a tagged variant with a base directory,
    the asset kinds it may resolve, and whether resolving through it needs a
    live existence check. *)
Inductive probe_source :=
  | OwnDirectory
  | AdditionalManifestDirectory
  | SharedStore
  | GlobalFallbackCache
  | BundleVirtual.

Record probe_config_t := {
  probe_dir : string;
  source : probe_source;
  applies_to : asset_types.t → bool;
  needs_existence_check : bool;
}.

(** [arguments_t], as far as the constructor reads it. *)
Record arguments_t := {
  app_root : string;
  host_mode : host_mode_t;
  managed_application : string;
  core_servicing : string;
  deps_path : string;
  additional_deps_serialized : string;
}.

(** Modelled from the spec: [bundle::info_t] and [bundle::runner_t] are
    declared in [bundle/runner.h]. The bundle collaborator gives a boolean
    (running as a single-file bundle), a backward-compatibility flag, an
    extraction directory and a membership lookup. *)
Record bundle_t := {
  is_single_file_bundle : bool;
  is_netcoreapp3_compat_mode : bool;
  extraction_path : string;
  bundle_locate : string → option string;
}.

Record deps_resolver_t := {
  m_fx_definitions : list fx_definition_t;
  m_fx_deps : list (option deps_json_t);
  m_app_dir : string;
  m_host_mode : host_mode_t;
  m_managed_app : string;
  m_core_servicing : string;
  m_coreclr_path : string;
  m_additional_deps : list (option deps_json_t);
  m_probes : list probe_config_t;
  m_is_framework_dependent : bool;
  m_needs_file_existence_checks : bool;
}.

(** ** [get_app_dir] *)

Section app_dir.
Context {pal : Pal}.

Definition get_app_dir (r : deps_resolver_t) (b : bundle_t) : option string :=
  if decide (m_host_mode r = libhost) then Some ""
  else
    let app_dir := m_app_dir r in
    let app_dir :=
      if decide (m_host_mode r = apphost) then
        if is_single_file_bundle b then
          if is_netcoreapp3_compat_mode b then extraction_path b
          else app_dir
        else app_dir
      else app_dir in
    match back app_dir with
    | None => None
    | Some c =>
        if decide (c = DIR_SEPARATOR) then Some app_dir
        else Some (append_char app_dir DIR_SEPARATOR)
    end.

(** The process is an application-bootstrapped single-file bundle in
    backward-compatibility mode. *)
Definition compat_bundle_apphost (r : deps_resolver_t) (b : bundle_t) : Prop :=
  m_host_mode r = apphost ∧ is_single_file_bundle b = true
  ∧ is_netcoreapp3_compat_mode b = true.

#[global] Instance compat_bundle_apphost_dec r b :
  Decision (compat_bundle_apphost r b).
Proof. unfold compat_bundle_apphost. apply _. Defined.

(** The path a non-libhost mode selects: the bundle's extraction directory
    for a compat-mode bundle under apphost, the application root
    otherwise. *)
Definition selected_app_dir (r : deps_resolver_t) (b : bundle_t) : string :=
  if decide (compat_bundle_apphost r b) then extraction_path b
  else m_app_dir r.

(** A path [p] as a directory path: [p] itself when it ends with the
    separator, [p] followed by one separator otherwise. *)
Definition as_directory (p : string) : string :=
  if decide (back p = Some DIR_SEPARATOR) then p
  else append_char p DIR_SEPARATOR.
End app_dir.

(** ** [valid] *)

(** How a loop of [valid] ends: it runs to its end, or a [return false]
    leaves the function with [errors] assigned. *)
Inductive loop_exit :=
  | Completed
  | ReturnFalse (errors : string).

Definition missing_manifest_message : string :=
  "A fatal error was encountered, missing dependencies manifest at: ".

Definition parse_error_message : string :=
  "An error occurred while parsing: ".

(** The loop over [m_fx_deps], from index [i] on; [slots] are the elements
    at [i] and after. *)
Fixpoint valid_fx_deps (i : nat) (slots : list (option deps_json_t))
    : option loop_exit :=
  match slots with
  | [] => Some Completed
  | slot :: rest =>
      match slot with
      | None => None
      | Some deps =>
          if negb (Nat.eqb i 0) && negb (exists_ deps) then
            Some (ReturnFalse (missing_manifest_message +:+ get_deps_file deps))
          else if negb (is_valid deps) then
            Some (ReturnFalse (parse_error_message +:+ get_deps_file deps))
          else valid_fx_deps (S i) rest
      end
  end.

(** The loop over [m_additional_deps]. *)
Fixpoint valid_additional_deps (slots : list (option deps_json_t))
    : option loop_exit :=
  match slots with
  | [] => Some Completed
  | slot :: rest =>
      match slot with
      | None => None
      | Some additional_deps =>
          if negb (is_valid additional_deps) then
            Some (ReturnFalse
                    (parse_error_message +:+ get_deps_file additional_deps))
          else valid_additional_deps rest
      end
  end.

(** [valid(errors)]: the returned flag and the content of [errors] on
    return; [errors] is the content on entry. *)
Definition valid (r : deps_resolver_t) (errors : string) : option (bool * string) :=
  match valid_fx_deps 0 (m_fx_deps r) with
  | None => None
  | Some (ReturnFalse e) => Some (false, e)
  | Some Completed =>
      match valid_additional_deps (m_additional_deps r) with
      | None => None
      | Some (ReturnFalse e) => Some (false, e)
      | Some Completed => Some (true, "")
      end
  end.

(** The checks [valid] makes on the layer at index [i]. *)
Definition layer_passes (i : nat) (deps : deps_json_t) : Prop :=
  (i = 0 ∨ exists_ deps = true) ∧ is_valid deps = true.


(** ** Construction *)

(** The collaborators the constructor calls and this header does not
    define: the manifest reader behind [deps_json_t]'s constructor, and the
    private [resolve_additional_deps] and [setup_probe_config], which fill
    [m_additional_deps], and [m_probes] with
    [m_needs_file_existence_checks]. *)
Class Loader := {
  read_deps_file : string → deps_file_t;
  resolve_additional_deps :
    string → option rid_fallback_graph_t → list (option deps_json_t);
  setup_probe_config : arguments_t → list probe_config_t * bool;
}.

Section construction.
Context {pal : Pal} {loader : Loader}.

(** Modelled from the spec: [deps_json_t]'s constructor is in
    [deps_format.h]. The manifest object resolves its RID fallback list to
    the list it is given, and to the list of its own file when it is
    given none. *)
Definition new_deps_json_t (is_framework_dependent : bool)
    (deps_file : string) (graph : option rid_fallback_graph_t) : deps_json_t :=
  let f := read_deps_file deps_file in
  {| get_deps_file := deps_file;
     exists_ := file_present f;
     is_valid := file_parses f;
     dj_is_framework_dependent := is_framework_dependent;
     get_rid_fallback_graph :=
       match graph with
       | Some g => g
       | None => file_rid_fallback_graph f
       end;
     dj_entries := file_entries f |}.

Definition get_fx_deps (fx_dir fx_name : string) : string :=
  let fx_deps := fx_dir in
  let fx_deps_name := fx_name +:+ ".deps.json" in
  append_path fx_deps fx_deps_name.

(** What the constructor's loop changes: [m_fx_deps] and the local pointer
    [root_framework_rid_fallback_graph]. *)
Record ctor_state := {
  cs_fx_deps : list (option deps_json_t);
  cs_graph : option rid_fallback_graph_t;
}.

(** The manifest file of the layer at index [i]: the application's own
    manifest path at index 0, the framework's [<dir>/<name>.deps.json]
    elsewhere; [None] is a read out of range. *)
Definition deps_file_at (args : arguments_t) (fxs : list fx_definition_t)
    (i : nat) : option string :=
  if decide (i = 0) then Some (deps_path args)
  else fx ← fxs !! i; Some (get_fx_deps (get_dir fx) (get_name fx)).

(** The loop body at index [i]; [None] is a read out of range or through
    a null pointer. *)
Definition ctor_body (args : arguments_t) (fxs : list fx_definition_t)
    (lowest_framework : Z) (i : nat) (st : ctor_state) : option ctor_state :=
  deps_file ← deps_file_at args fxs i;
  if bool_decide (cs_graph st = None) && bool_decide (Z.of_nat i = lowest_framework)
  then
    let fx_deps :=
      <[i := Some (new_deps_json_t false deps_file None)]> (cs_fx_deps st) in
    root ← mjoin (fx_deps !! Z.to_nat lowest_framework);
    Some {| cs_fx_deps := fx_deps;
            cs_graph := Some (get_rid_fallback_graph root) |}
  else
    Some {| cs_fx_deps :=
              <[i := Some (new_deps_json_t true deps_file (cs_graph st))]>
                (cs_fx_deps st);
            cs_graph := cs_graph st |}.

(** [for (int i = lowest_framework; i >= 0; --i)] with [n] iterations
    left: the next index is [n - 1]. *)
Fixpoint ctor_loop (args : arguments_t) (fxs : list fx_definition_t)
    (lowest_framework : Z) (n : nat) (st : ctor_state) : option ctor_state :=
  match n with
  | 0 => Some st
  | S i =>
      st' ← ctor_body args fxs lowest_framework i st;
      ctor_loop args fxs lowest_framework i st'
  end.

(** [deps_resolver_t::deps_resolver_t] *)
Definition new_deps_resolver_t (args : arguments_t)
    (fx_definitions : list fx_definition_t)
    (root_framework_rid_fallback_graph : option rid_fallback_graph_t)
    (is_framework_dependent : bool) : option deps_resolver_t :=
  let fx_deps := replicate (length fx_definitions) None in
  let lowest_framework := (Z.of_nat (length fx_definitions) - 1)%Z in
  st ← ctor_loop args fx_definitions lowest_framework
         (Z.to_nat (lowest_framework + 1))
         {| cs_fx_deps := fx_deps;
            cs_graph := root_framework_rid_fallback_graph |};
  let additional :=
    resolve_additional_deps (additional_deps_serialized args) (cs_graph st) in
  let '(probes, checks) := setup_probe_config args in
  Some {| m_fx_definitions := fx_definitions;
          m_fx_deps := cs_fx_deps st;
          m_app_dir := app_root args;
          m_host_mode := host_mode args;
          m_managed_app := managed_application args;
          m_core_servicing := core_servicing args;
          m_coreclr_path := "";
          m_additional_deps := additional;
          m_probes := probes;
          m_is_framework_dependent := is_framework_dependent;
          m_needs_file_existence_checks := checks |}.

(** The RID fallback list in force: the supplied one, or the one in the
    root framework's manifest file. *)
Definition graph_in_force (args : arguments_t) (fxs : list fx_definition_t)
    (supplied : option rid_fallback_graph_t) : rid_fallback_graph_t :=
  match supplied with
  | Some g => g
  | None =>
      match deps_file_at args fxs (length fxs - 1) with
      | Some root_file => file_rid_fallback_graph (read_deps_file root_file)
      | None => []
      end
  end.

(** What holds of the loop's state when the indices from [k] on are done. *)
Definition ctor_invariant (args : arguments_t) (fxs : list fx_definition_t)
    (supplied : option rid_fallback_graph_t) (k : nat) (st : ctor_state) : Prop :=
  length (cs_fx_deps st) = length fxs
  ∧ (∀ i, k ≤ i < length fxs →
       ∃ deps, cs_fx_deps st !! i = Some (Some deps)
               ∧ Some (get_deps_file deps) = deps_file_at args fxs i
               ∧ get_rid_fallback_graph deps = graph_in_force args fxs supplied)
  ∧ cs_graph st =
      (if decide (k = length fxs) then supplied
       else Some (graph_in_force args fxs supplied)).

(** [get_root_deps] *)
Definition get_root_deps (r : deps_resolver_t) : option deps_json_t :=
  mjoin (m_fx_deps r !! (length (m_fx_definitions r) - 1)).

(** [get_app_deps] *)
Definition get_app_deps (r : deps_resolver_t) : option deps_json_t :=
  mjoin (m_fx_deps r !! 0).
End construction.

(** ** Resolver engine

    [resolve_probe_paths], [resolve_tpa_list], [resolve_probe_dirs] and
    [probe_deps_entry] are declared in the header and defined outside it. *)

(** Modelled from the spec: the filesystem-existence oracle and the bundle
    membership collaborator are external; a pass consults their answers. *)
Record oracle_t := {
  file_exists : string → bool;
  the_bundle : bundle_t;
}.

(** Modelled from the spec: one layer of the Framework Layer Stack, which
    the walks outside this header go through: its manifest and the directory
    of its layer descriptor. *)
Record layer_t := {
  layer_dir : string;
  layer_deps : deps_json_t;
}.

(** Modelled from the spec: the error kind of a resolution, an entry with
    no satisfying candidate in any probe location. *)
Inductive resolve_error :=
  | UnresolvableAsset (entry : deps_entry_t).

Section engine.
Context {pal : Pal}.

(** Modelled from the spec: [deps_json_t::get_entries] is declared in
    [deps_format.h]. The entries of one asset kind, in declared order. *)
Definition get_entries (deps : deps_json_t) (kind : asset_types.t)
    : list deps_entry_t :=
  filter (λ e, asset_type e = kind) (dj_entries deps).

(** Modelled from the spec: the logical identity of an entry, computed
    outside this header, is its simple name. *)
Definition identity (entry : deps_entry_t) : string :=
  asset_name (asset entry).

(** Modelled from the spec: the Framework Layer Stack the walks outside
    this header go through, application layer first: the loaded manifests
    of [m_fx_deps] with the directories of their layer descriptors. *)
Definition layer_stack (r : deps_resolver_t) : list layer_t :=
  omap (λ '(fx, slot),
          (λ deps, {| layer_dir := get_dir fx; layer_deps := deps |}) <$> slot)
       (zip (m_fx_definitions r) (m_fx_deps r)).

(** Modelled from the spec: the existence check of a candidate, made
    outside this header; the candidate is checked against the filesystem
    when [check] is set. *)
Definition existing (o : oracle_t) (check : bool) (candidate : string)
    : option string :=
  if check then
    if file_exists o candidate then Some candidate else None
  else Some candidate.

(** Modelled from the spec: resolution of an entry through one Probe
    Configuration, which is not in this header. A configuration whose
    applicability excludes the entry's kind resolves nothing; the
    bundle-virtual one asks the membership record and touches no file; the
    others check the candidate under their base directory when they require
    it. The flag says whether the path was found in the bundle. *)
Definition probe_through (o : oracle_t) (cfg : probe_config_t)
    (entry : deps_entry_t) : option (string * bool) :=
  if applies_to cfg (asset_type entry) then
    match source cfg with
    | BundleVirtual =>
        (λ p, (p, true)) <$>
          bundle_locate (the_bundle o) (relative_path (asset entry))
    | _ =>
        (λ p, (p, false)) <$>
          existing o (needs_existence_check cfg)
            (append_path (probe_dir cfg) (relative_path (asset entry)))
    end
  else None.

(** Modelled from the spec: the Probe Configurations of [m_probes] are
    consulted in their order outside this header; the first that resolves
    the entry wins. *)
Fixpoint first_probe (o : oracle_t) (cfgs : list probe_config_t)
    (entry : deps_entry_t) : option (string * bool) :=
  match cfgs with
  | [] => None
  | cfg :: rest =>
      match probe_through o cfg entry with
      | Some found => Some found
      | None => first_probe o rest entry
      end
  end.

(** Modelled from the spec: [probe_deps_entry] is defined outside this
    header. The candidates are tried in order: the entry's relative path
    under its layer's directory, checked when the resolver needs existence
    checks, then every Probe Configuration in their order; the first success
    wins, and [None] is a resolution miss. *)
Definition probe_deps_entry (r : deps_resolver_t) (o : oracle_t)
    (entry : deps_entry_t) (deps_dir : string) (fx_level : nat)
    : option (string * bool) :=
  match existing o (m_needs_file_existence_checks r)
          (append_path deps_dir (relative_path (asset entry))) with
  | Some candidate => Some (candidate, false)
  | None => first_probe o (m_probes r) entry
  end.

(** The directories appended so far, and the Breadcrumb Set. *)
Definition dirs_state : Type := list string * gset string.

(** Modelled from the spec: the unit of deduplication of the probe-directory
    walk is the containing directory of the resolved path, plus the culture
    subdirectory for a resource asset. *)
Definition probe_directory (kind : asset_types.t) (entry : deps_entry_t)
    (path : string) : string :=
  match kind, culture entry with
  | asset_types.resources, Some c => append_path (get_directory path) c
  | _, _ => get_directory path
  end.

(** Modelled from the spec: one entry of the probe-directory walk, which is
    defined outside this header. The walk is the managed-library one with
    the directory as the unit of deduplication, under the strict policy: a
    resolved entry appends its directory unless the output has it. *)
Definition dirs_entry (r : deps_resolver_t) (o : oracle_t)
    (kind : asset_types.t) (deps_dir : string) (fx_level : nat)
    (entry : deps_entry_t) (st : dirs_state) : resolve_error + dirs_state :=
  match probe_deps_entry r o entry deps_dir fx_level with
  | Some (path, _) =>
      let dir := probe_directory kind entry path in
      inr (if decide (dir ∈ st.1) then st.1 else st.1 ++ [dir],
           {[identity entry]} ∪ st.2)
  | None => inl (UnresolvableAsset entry)
  end.

(** Modelled from the spec: the probe-directory walk over the entries of
    one layer, and over the layers; it is defined outside this header. *)
Fixpoint dirs_entries (r : deps_resolver_t) (o : oracle_t)
    (kind : asset_types.t) (deps_dir : string) (fx_level : nat)
    (entries : list deps_entry_t) (st : dirs_state) : resolve_error + dirs_state :=
  match entries with
  | [] => inr st
  | entry :: rest =>
      match dirs_entry r o kind deps_dir fx_level entry st with
      | inl err => inl err
      | inr st' => dirs_entries r o kind deps_dir fx_level rest st'
      end
  end.

Fixpoint dirs_layers (r : deps_resolver_t) (o : oracle_t)
    (kind : asset_types.t) (fx_level : nat) (layers : list layer_t)
    (st : dirs_state) : resolve_error + dirs_state :=
  match layers with
  | [] => inr st
  | layer :: rest =>
      match dirs_entries r o kind (layer_dir layer) fx_level
              (get_entries (layer_deps layer) kind) st with
      | inl err => inl err
      | inr st' => dirs_layers r o kind (S fx_level) rest st'
      end
  end.

(** Modelled from the spec: [resolve_probe_dirs] is defined outside this
    header. It gives the directories in the order they were appended, and
    the Breadcrumb Set. *)
Definition resolve_probe_dirs (r : deps_resolver_t) (o : oracle_t)
    (kind : asset_types.t) (breadcrumb : gset string)
    : resolve_error + (list string * gset string) :=
  dirs_layers r o kind 0 (layer_stack r) ([], breadcrumb).

(** *** The properties of the walks, in the words of the specification *)

(** The first occurrence of every element, in order. *)
Fixpoint first_seen (l : list string) : list string :=
  match l with
  | [] => []
  | x :: rest => x :: filter (λ y, y ≠ x) (first_seen rest)
  end.

(** The directory an entry of a layer at [fx_level] resolves to, when it
    resolves. *)
Definition entry_directory (r : deps_resolver_t) (o : oracle_t)
    (kind : asset_types.t) (deps_dir : string) (fx_level : nat)
    (entry : deps_entry_t) : option string :=
  (λ found, probe_directory kind entry found.1) <$>
    probe_deps_entry r o entry deps_dir fx_level.

(** The directories of the resolved entries of the layers from [fx_level]
    on, in the order of the walk, repetitions included. *)
Fixpoint seen_directories (r : deps_resolver_t) (o : oracle_t)
    (kind : asset_types.t) (fx_level : nat) (layers : list layer_t)
    : list string :=
  match layers with
  | [] => []
  | layer :: rest =>
      omap (entry_directory r o kind (layer_dir layer) fx_level)
           (get_entries (layer_deps layer) kind)
      ++ seen_directories r o kind (S fx_level) rest
  end.

(** *** The walks as one sequence of steps

    A step is an entry with the directory and the level of the layer that
    declares it. *)
Definition walk_step : Type := string * nat * deps_entry_t.

Definition layer_steps (kind : asset_types.t) (fx_level : nat) (layer : layer_t)
    : list walk_step :=
  (λ entry, (layer_dir layer, fx_level, entry)) <$>
    get_entries (layer_deps layer) kind.

Fixpoint stack_steps (kind : asset_types.t) (fx_level : nat)
    (layers : list layer_t) : list walk_step :=
  match layers with
  | [] => []
  | layer :: rest =>
      layer_steps kind fx_level layer ++ stack_steps kind (S fx_level) rest
  end.

Fixpoint dirs_steps (r : deps_resolver_t) (o : oracle_t) (kind : asset_types.t)
    (steps : list walk_step) (st : dirs_state) : resolve_error + dirs_state :=
  match steps with
  | [] => inr st
  | (deps_dir, fx_level, entry) :: rest =>
      match dirs_entry r o kind deps_dir fx_level entry st with
      | inl err => inl err
      | inr st' => dirs_steps r o kind rest st'
      end
  end.

Definition step_directory (r : deps_resolver_t) (o : oracle_t)
    (kind : asset_types.t) (s : walk_step) : option string :=
  entry_directory r o kind s.1.1 s.1.2 s.2.

(** A directory joins the output unless the output has it. *)
Definition add_unseen (dirs : list string) (dir : string) : list string :=
  if decide (dir ∈ dirs) then dirs else dirs ++ [dir].

End engine.

(** ** A concrete host

    A Unix platform and the two-layer application of the specification's
    end-to-end example: the application declares Widgets, the root framework
    Fx declares Widgets and Utils. *)

Fixpoint directory_prefix (s : string) : option string :=
  match s with
  | EmptyString => None
  | String c rest =>
      match directory_prefix rest with
      | Some d => Some (String c d)
      | None => if decide (c = "/"%char) then Some "" else None
      end
  end.

Definition unix_pal : Pal :=
  {| DIR_SEPARATOR := "/";
     PATH_SEPARATOR := ":";
     append_path := λ a b,
       if decide (a = "") then b
       else if decide (back a = Some "/"%char) then a +:+ b
       else a +:+ "/" +:+ b;
     get_directory := λ s, default "" (directory_prefix s) |}.

Definition managed (name path : string) : deps_entry_t :=
  {| asset := {| asset_name := name; relative_path := path |};
     asset_type := asset_types.runtime;
     library_name := name;
     library_version := "1.0.0";
     culture := None |}.

Definition native_library (name path : string) : deps_entry_t :=
  {| asset := {| asset_name := name; relative_path := path |};
     asset_type := asset_types.native;
     library_name := name;
     library_version := "1.0.0";
     culture := None |}.

Definition widgets : deps_entry_t := managed "Widgets" "Widgets.dll".
Definition utils : deps_entry_t := managed "Utils" "Utils.dll".

(** The Probe Configuration of a layer's own base directory: it applies to
    every asset kind, with an existence check. *)
Definition own_directory (dir : string) : probe_config_t :=
  {| probe_dir := dir;
     source := OwnDirectory;
     applies_to := λ _, true;
     needs_existence_check := true |}.

Definition example_probes : list probe_config_t :=
  [own_directory "app"; own_directory "shared/Fx"].

Definition example_rid_graph : rid_fallback_graph_t :=
  [("linux-x64", ["linux"; "unix"; "any"])].

Definition example_files (path : string) : deps_file_t :=
  if decide (path = "app/App.deps.json") then
    {| file_present := true; file_parses := true;
       file_rid_fallback_graph := [];
       file_entries := [widgets; native_library "a" "native/liba.so";
                        native_library "b" "native/libb.so"] |}
  else if decide (path = "shared/Fx/Fx.deps.json") then
    {| file_present := true; file_parses := true;
       file_rid_fallback_graph := example_rid_graph;
       file_entries := [widgets; utils] |}
  else
    {| file_present := false; file_parses := false;
       file_rid_fallback_graph := [];
       file_entries := [] |}.

Definition example_loader : Loader :=
  {| read_deps_file := example_files;
     resolve_additional_deps := λ _ _, [];
     setup_probe_config := λ _, (example_probes, true) |}.

Definition example_args : arguments_t :=
  {| app_root := "app";
     host_mode := muxer;
     managed_application := "app/App.dll";
     core_servicing := "";
     deps_path := "app/App.deps.json";
     additional_deps_serialized := "" |}.

Definition example_fx_definitions : list fx_definition_t :=
  [{| get_name := "App"; get_dir := "app" |};
   {| get_name := "Fx"; get_dir := "shared/Fx" |}].

Definition app_manifest : deps_json_t :=
  @new_deps_json_t example_loader true "app/App.deps.json" (Some example_rid_graph).

Definition fx_manifest : deps_json_t :=
  @new_deps_json_t example_loader false "shared/Fx/Fx.deps.json" None.

Definition example_resolver : deps_resolver_t :=
  {| m_fx_definitions := example_fx_definitions;
     m_fx_deps := [Some app_manifest; Some fx_manifest];
     m_app_dir := "app";
     m_host_mode := muxer;
     m_managed_app := "app/App.dll";
     m_core_servicing := "";
     m_coreclr_path := "";
     m_additional_deps := [];
     m_probes := example_probes;
     m_is_framework_dependent := true;
     m_needs_file_existence_checks := true |}.

Definition app_layer : layer_t :=
  {| layer_dir := "app"; layer_deps := app_manifest |}.

Definition fx_layer : layer_t :=
  {| layer_dir := "shared/Fx"; layer_deps := fx_manifest |}.

Definition no_bundle : bundle_t :=
  {| is_single_file_bundle := false;
     is_netcoreapp3_compat_mode := false;
     extraction_path := "";
     bundle_locate := λ _, None |}.

Definition compat_bundle : bundle_t :=
  {| is_single_file_bundle := true;
     is_netcoreapp3_compat_mode := true;
     extraction_path := "/tmp/extract/";
     bundle_locate := λ _, None |}.

(** Every file of the example is on disk. *)
Definition full_disk : oracle_t :=
  {| file_exists := λ _, true; the_bundle := no_bundle |}.

(** The same resolver under another host mode. *)
Definition in_host_mode (mode : host_mode_t) (r : deps_resolver_t)
    : deps_resolver_t :=
  {| m_fx_definitions := m_fx_definitions r;
     m_fx_deps := m_fx_deps r;
     m_app_dir := m_app_dir r;
     m_host_mode := mode;
     m_managed_app := m_managed_app r;
     m_core_servicing := m_core_servicing r;
     m_coreclr_path := m_coreclr_path r;
     m_additional_deps := m_additional_deps r;
     m_probes := m_probes r;
     m_is_framework_dependent := m_is_framework_dependent r;
     m_needs_file_existence_checks := m_needs_file_existence_checks r |}.

(** A stack of three layers whose manifest at index 1 is absent and whose
    manifest at index 2 does not parse. *)
Definition absent_manifest (path : string) : deps_json_t :=
  {| get_deps_file := path; exists_ := false; is_valid := false;
     dj_is_framework_dependent := true; get_rid_fallback_graph := [];
     dj_entries := [] |}.

Definition malformed_manifest (path : string) : deps_json_t :=
  {| get_deps_file := path; exists_ := true; is_valid := false;
     dj_is_framework_dependent := true; get_rid_fallback_graph := [];
     dj_entries := [] |}.

Definition broken_layers : list deps_json_t :=
  [app_manifest; absent_manifest "shared/Mid/Mid.deps.json";
   malformed_manifest "shared/Fx/Fx.deps.json"].

Definition broken_resolver : deps_resolver_t :=
  {| m_fx_definitions :=
       [{| get_name := "App"; get_dir := "app" |};
        {| get_name := "Mid"; get_dir := "shared/Mid" |};
        {| get_name := "Fx"; get_dir := "shared/Fx" |}];
     m_fx_deps := Some <$> broken_layers;
     m_app_dir := "app";
     m_host_mode := muxer;
     m_managed_app := "app/App.dll";
     m_core_servicing := "";
     m_coreclr_path := "";
     m_additional_deps := [Some (malformed_manifest "extra/Extra.deps.json")];
     m_probes := [];
     m_is_framework_dependent := true;
     m_needs_file_existence_checks := true |}.

(** ** Accessors and the constructor's loop in closed form *)

(** [is_framework_dependent] *)
Definition is_framework_dependent (r : deps_resolver_t) : bool :=
  m_is_framework_dependent r.

(** [r] with another application directory. *)
Definition with_app_dir (r : deps_resolver_t) (app_dir : string)
    : deps_resolver_t :=
  {| m_fx_definitions := m_fx_definitions r;
     m_fx_deps := m_fx_deps r;
     m_app_dir := app_dir;
     m_host_mode := m_host_mode r;
     m_managed_app := m_managed_app r;
     m_core_servicing := m_core_servicing r;
     m_coreclr_path := m_coreclr_path r;
     m_additional_deps := m_additional_deps r;
     m_probes := m_probes r;
     m_is_framework_dependent := m_is_framework_dependent r;
     m_needs_file_existence_checks := m_needs_file_existence_checks r |}.

Section closed_form.
Context {pal : Pal} {loader : Loader}.

(** The loop's state when the indices from [k] on are done, slot by slot:
    the root's manifest is made without a fallback list when none is
    supplied, every other manifest with the list in force. *)
Definition ctor_closed_form (args : arguments_t) (fxs : list fx_definition_t)
    (supplied : option rid_fallback_graph_t) (k : nat) (st : ctor_state) : Prop :=
  length (cs_fx_deps st) = length fxs
  ∧ (∀ j, k ≤ j < length fxs →
       ∃ file,
         deps_file_at args fxs j = Some file
         ∧ cs_fx_deps st !! j =
             Some (Some
               (if bool_decide (supplied = None)
                   && bool_decide (j = length fxs - 1)
                then new_deps_json_t false file None
                else new_deps_json_t true file
                       (Some (graph_in_force args fxs supplied)))))
  ∧ cs_graph st =
      (if decide (k = length fxs) then supplied
       else Some (graph_in_force args fxs supplied)).
End closed_form.

(** A stack of three layers whose middle framework has no manifest file. *)
Definition layered_fx_definitions : list fx_definition_t :=
  [{| get_name := "App"; get_dir := "app" |};
   {| get_name := "Mid"; get_dir := "shared/Mid" |};
   {| get_name := "Fx"; get_dir := "shared/Fx" |}].

(** ** Strings *)

Lemma back_append_char (s : string) (c : ascii) : back (append_char s c) = Some c.
Proof.
  unfold append_char. induction s as [|a s IH]; [done|].
  simpl. rewrite IH. by destruct (s +:+ String c "").
Qed.

Lemma back_None (s : string) : back s = None ↔ s = "".
Proof.
  split; [|by intros ->].
  induction s as [|a s IH]; [done|]. simpl.
  destruct s; [done|]. intros Hb. by apply IH in Hb.
Qed.

(** ** Properties of [get_app_dir] *)

Section app_dir_properties.
Context {pal : Pal}.

Lemma get_app_dir_not_libhost r b :
  m_host_mode r ≠ libhost →
  get_app_dir r b =
    match back (selected_app_dir r b) with
    | None => None
    | Some _ => Some (as_directory (selected_app_dir r b))
    end.
Proof.
  intros Hm. unfold get_app_dir, selected_app_dir, as_directory.
  destruct (decide (m_host_mode r = libhost)) as [|_]; [done|].
  destruct (decide (compat_bundle_apphost r b)) as [(Ha & Hb & Hc)|Hn].
  - rewrite decide_True by done. rewrite Hb, Hc.
    destruct (back (extraction_path b)) as [c|]; [|done].
    destruct (decide (c = DIR_SEPARATOR)) as [->|Hne].
    + by rewrite decide_True.
    + rewrite decide_False; [done|congruence].
  - assert ((if decide (m_host_mode r = apphost) then
               if is_single_file_bundle b then
                 if is_netcoreapp3_compat_mode b then extraction_path b
                 else m_app_dir r
               else m_app_dir r
             else m_app_dir r) = m_app_dir r) as ->.
    { destruct (decide (m_host_mode r = apphost)); [|done].
      destruct (is_single_file_bundle b) eqn:?; [|done].
      destruct (is_netcoreapp3_compat_mode b) eqn:?; [|done].
      by destruct Hn. }
    destruct (back (m_app_dir r)) as [c|]; [|done].
    destruct (decide (c = DIR_SEPARATOR)) as [->|Hne].
    + by rewrite decide_True.
    + rewrite decide_False; [done|congruence].
Qed.

Lemma back_as_directory p : back (as_directory p) = Some DIR_SEPARATOR.
Proof.
  unfold as_directory. case_decide; [done|]. apply back_append_char.
Qed.
End app_dir_properties.

(** ** The end-to-end example of the specification

    The application declares Widgets; the root framework declares Widgets
    and Utils. *)

Example example_construction :
  @new_deps_resolver_t unix_pal example_loader example_args
    example_fx_definitions None true = Some example_resolver.
Proof. reflexivity. Qed.

Example example_layer_stack :
  layer_stack example_resolver = [app_layer; fx_layer].
Proof. reflexivity. Qed.

Example example_get_app_dir :
  @get_app_dir unix_pal example_resolver no_bundle = Some "app/".
Proof. reflexivity. Qed.

Example example_valid :
  valid example_resolver "stale" = Some (true, "").
Proof. reflexivity. Qed.

(** ** Claims about [get_app_dir] *)

(** C5: for every host mode in which [get_app_dir] returns a non-empty
    path, the returned path ends with the directory separator; when the
    selected path already ends with the separator it is returned as it is,
    nothing is appended, and otherwise exactly one separator is appended. *)
Theorem get_app_dir_trailing_separator `{Pal} (r : deps_resolver_t)
    (b : bundle_t) (p : string) :
  get_app_dir r b = Some p →
  p ≠ "" →
  back p = Some DIR_SEPARATOR
  ∧ (back (selected_app_dir r b) = Some DIR_SEPARATOR →
     p = selected_app_dir r b)
  ∧ (back (selected_app_dir r b) ≠ Some DIR_SEPARATOR →
     p = append_char (selected_app_dir r b) DIR_SEPARATOR).
Proof.
  intros Hget Hp.
  assert (m_host_mode r ≠ libhost) as Hm.
  { intros Hm. unfold get_app_dir in Hget.
    rewrite decide_True in Hget by done. by inversion Hget. }
  rewrite (get_app_dir_not_libhost r b Hm) in Hget.
  destruct (back (selected_app_dir r b)) as [c|] eqn:Hback; [|done].
  inversion Hget as [Hpeq]. split; [apply back_as_directory|].
  unfold as_directory. rewrite Hback. split; intros Hc.
  - by rewrite decide_True.
  - by rewrite decide_False.
Qed.

Lemma get_app_dir_trailing_separator_witness :
  back "app/" = Some "/"%char
  ∧ (back (@selected_app_dir example_resolver no_bundle) = Some "/"%char →
     "app/" = @selected_app_dir example_resolver no_bundle)
  ∧ (back (@selected_app_dir example_resolver no_bundle) ≠ Some "/"%char →
     "app/" = append_char (@selected_app_dir example_resolver no_bundle) "/").
Proof.
  apply (@get_app_dir_trailing_separator unix_pal example_resolver no_bundle "app/");
    [reflexivity | discriminate].
Defined.

(** C6: [get_app_dir] returns the empty string under libhost; in another
    mode it returns the configured application root, except that under
    apphost, in a single-file bundle in netcoreapp3 compatibility mode, it
    returns the bundle's extraction directory; the path comes back as a
    directory path, that is, ending with the directory separator. *)
Theorem get_app_dir_selection `{Pal} (r : deps_resolver_t) (b : bundle_t) :
  (m_host_mode r = libhost → get_app_dir r b = Some "")
  ∧ (m_host_mode r ≠ libhost →
     ¬ compat_bundle_apphost r b →
     m_app_dir r ≠ "" →
     get_app_dir r b = Some (as_directory (m_app_dir r)))
  ∧ (compat_bundle_apphost r b →
     extraction_path b ≠ "" →
     get_app_dir r b = Some (as_directory (extraction_path b))).
Proof.
  split; [|split].
  - intros Hm. unfold get_app_dir. by rewrite decide_True.
  - intros Hm Hn Hroot. rewrite get_app_dir_not_libhost by done.
    unfold selected_app_dir. rewrite decide_False by done.
    destruct (back (m_app_dir r)) eqn:Hb; [done|].
    by apply back_None in Hb.
  - intros Hc Hx.
    assert (m_host_mode r ≠ libhost) as Hm.
    { destruct Hc as [Hc _]. rewrite Hc. discriminate. }
    rewrite get_app_dir_not_libhost by done.
    unfold selected_app_dir. rewrite decide_True by done.
    destruct (back (extraction_path b)) eqn:Hb; [done|].
    by apply back_None in Hb.
Qed.

Lemma get_app_dir_selection_witness :
  @get_app_dir unix_pal (in_host_mode libhost example_resolver) compat_bundle
    = Some ""
  ∧ @get_app_dir unix_pal example_resolver compat_bundle = Some "app/"
  ∧ @get_app_dir unix_pal (in_host_mode apphost example_resolver) compat_bundle
    = Some "/tmp/extract/".
Proof.
  split; [|split].
  - apply (@get_app_dir_selection unix_pal
             (in_host_mode libhost example_resolver) compat_bundle).
    reflexivity.
  - apply (@get_app_dir_selection unix_pal example_resolver compat_bundle).
    + discriminate.
    + intros (Hm & _). discriminate Hm.
    + discriminate.
  - apply (@get_app_dir_selection unix_pal
             (in_host_mode apphost example_resolver) compat_bundle).
    + repeat split.
    + discriminate.
Defined.

(** C9: [get_app_dir] has a result exactly when the host mode is libhost
    or the selected path (the application root, or the extraction path of a
    compat-mode bundle under apphost) is not empty: in a non-libhost mode an
    empty selected path reaches [back()] on the empty string, and a
    non-empty one never does. *)
Theorem get_app_dir_defined_iff `{Pal} (r : deps_resolver_t) (b : bundle_t) :
  (is_Some (get_app_dir r b)
   ↔ m_host_mode r = libhost ∨ selected_app_dir r b ≠ "")
  ∧ (m_host_mode r ≠ libhost →
     ¬ compat_bundle_apphost r b →
     m_app_dir r = "" →
     get_app_dir r b = None).
Proof.
  assert (m_host_mode r ≠ libhost → selected_app_dir r b = "" →
          get_app_dir r b = None) as Hnone.
  { intros Hm He. rewrite get_app_dir_not_libhost by done. by rewrite He. }
  split.
  - split.
    + intros Hs. destruct (decide (m_host_mode r = libhost)) as [|Hm]; [by left|].
      right. intros He. rewrite Hnone in Hs by done. by destruct Hs.
    + intros [Hm|Hne].
      * unfold get_app_dir. by rewrite decide_True.
      * destruct (decide (m_host_mode r = libhost)) as [Hm|Hm].
        { unfold get_app_dir. by rewrite decide_True. }
        rewrite get_app_dir_not_libhost by done.
        destruct (back (selected_app_dir r b)) eqn:Hb; [done|].
        by apply back_None in Hb.
  - intros Hm Hn He. apply Hnone; [done|].
    unfold selected_app_dir. by rewrite decide_False.
Qed.

Lemma get_app_dir_defined_iff_witness :
  @get_app_dir unix_pal
    {| m_fx_definitions := []; m_fx_deps := []; m_app_dir := "";
       m_host_mode := muxer; m_managed_app := ""; m_core_servicing := "";
       m_coreclr_path := ""; m_additional_deps := []; m_probes := [];
       m_is_framework_dependent := false;
       m_needs_file_existence_checks := false |} no_bundle = None.
Proof.
  apply @get_app_dir_defined_iff.
  - discriminate.
  - intros (Hm & _). discriminate Hm.
  - reflexivity.
Defined.

(** ** Claims about [valid] *)

Lemma valid_fx_deps_cons (i : nat) (deps : deps_json_t)
    (rest : list (option deps_json_t)) :
  valid_fx_deps i (Some deps :: rest) =
    if decide (i ≠ 0 ∧ exists_ deps = false) then
      Some (ReturnFalse (missing_manifest_message +:+ get_deps_file deps))
    else if decide (is_valid deps = false) then
      Some (ReturnFalse (parse_error_message +:+ get_deps_file deps))
    else valid_fx_deps (S i) rest.
Proof.
  simpl. destruct i as [|i], (exists_ deps), (is_valid deps); simpl;
    repeat case_decide; naive_solver.
Qed.

Lemma layer_passes_step (i : nat) (deps : deps_json_t) :
  layer_passes i deps ↔ ¬ (i ≠ 0 ∧ exists_ deps = false) ∧ is_valid deps ≠ false.
Proof.
  unfold layer_passes.
  destruct (decide (i = 0)), (exists_ deps), (is_valid deps);
    intuition congruence.
Qed.

(** The layers that pass are stepped over. *)
Lemma valid_fx_deps_passing (passing : list deps_json_t) (i : nat)
    (rest : list (option deps_json_t)) :
  (∀ j d, passing !! j = Some d → layer_passes (i + j) d) →
  valid_fx_deps i ((Some <$> passing) ++ rest)
  = valid_fx_deps (i + length passing) rest.
Proof.
  revert i. induction passing as [|d passing IH]; intros i Hpass.
  - simpl. by rewrite Nat.add_0_r.
  - rewrite fmap_cons, <- app_comm_cons, valid_fx_deps_cons.
    pose proof (Hpass 0 d eq_refl) as Hd. rewrite Nat.add_0_r in Hd.
    apply layer_passes_step in Hd as [Hd1 Hd2].
    rewrite !decide_False by done.
    rewrite IH.
    + f_equal. simpl. lia.
    + intros j d' Hj. replace (S i + j) with (i + S j) by lia.
      by apply Hpass.
Qed.

Lemma valid_additional_passing (passing : list deps_json_t)
    (rest : list (option deps_json_t)) :
  (∀ j d, passing !! j = Some d → is_valid d = true) →
  valid_additional_deps ((Some <$> passing) ++ rest)
  = valid_additional_deps rest.
Proof.
  induction passing as [|d passing IH]; intros Hpass; [done|].
  simpl. rewrite (Hpass 0 d eq_refl). simpl. apply IH.
  intros j d' Hj. by apply (Hpass (S j)).
Qed.

(** A list split at one of its indices. *)
Lemma split_at_index {A} (l : list A) (i : nat) (x : A) :
  l !! i = Some x → l = take i l ++ x :: drop (S i) l ∧ length (take i l) = i.
Proof.
  intros Hi. split.
  - by rewrite (take_drop_middle l i x).
  - apply length_take_le. apply lookup_lt_Some in Hi. lia.
Qed.

(** The outcome of the first loop when the layer at [i] is the first that
    fails a check. *)
Lemma valid_fx_deps_first_failure (layers : list deps_json_t) (i : nat)
    (deps : deps_json_t) :
  layers !! i = Some deps →
  (∀ j d, j < i → layers !! j = Some d → layer_passes j d) →
  valid_fx_deps 0 (Some <$> layers)
  = valid_fx_deps i (Some deps :: (Some <$> drop (S i) layers)).
Proof.
  intros Hi Hbefore.
  destruct (split_at_index layers i deps Hi) as [Hsplit Hlen].
  rewrite Hsplit at 1. rewrite fmap_app, fmap_cons.
  rewrite valid_fx_deps_passing; [by rewrite Hlen|].
  intros j d Hj. simpl.
  apply lookup_take_Some in Hj as [Hj Hlt]. by apply Hbefore.
Qed.

Lemma valid_fx_deps_all_pass (layers : list deps_json_t) :
  (∀ j d, layers !! j = Some d → layer_passes j d) →
  valid_fx_deps 0 (Some <$> layers) = Some Completed.
Proof.
  intros Hpass.
  rewrite <- (app_nil_r (Some <$> layers)).
  by rewrite valid_fx_deps_passing.
Qed.


(** C4: [valid] fails on the first manifest that fails a check and reports
    this one only. A layer other than the application layer whose file does
    not exist is reported as a missing manifest with its path (index 0 is
    not checked for existence); a layer manifest, or an additional manifest,
    that did not parse is reported as a parse error with its path; when
    every check passes, [errors] is cleared and [valid] returns true. *)
Theorem valid_fail_fast (r : deps_resolver_t)
    (layers additional : list deps_json_t) (errors : string) :
  m_fx_deps r = Some <$> layers →
  m_additional_deps r = Some <$> additional →
  (∀ i deps,
     layers !! i = Some deps →
     (∀ j d, j < i → layers !! j = Some d → layer_passes j d) →
     i ≠ 0 → exists_ deps = false →
     valid r errors
     = Some (false, missing_manifest_message +:+ get_deps_file deps))
  ∧ (∀ i deps,
       layers !! i = Some deps →
       (∀ j d, j < i → layers !! j = Some d → layer_passes j d) →
       i = 0 ∨ exists_ deps = true →
       is_valid deps = false →
       valid r errors
       = Some (false, parse_error_message +:+ get_deps_file deps))
  ∧ (∀ k deps,
       (∀ j d, layers !! j = Some d → layer_passes j d) →
       additional !! k = Some deps →
       (∀ j d, j < k → additional !! j = Some d → is_valid d = true) →
       is_valid deps = false →
       valid r errors
       = Some (false, parse_error_message +:+ get_deps_file deps))
  ∧ ((∀ j d, layers !! j = Some d → layer_passes j d) →
     (∀ j d, additional !! j = Some d → is_valid d = true) →
     valid r errors = Some (true, "")).
Proof.
  intros Hfx Hadd. unfold valid. rewrite Hfx, Hadd.
  split; [|split; [|split]].
  - intros i deps Hi Hbefore Hne Hex.
    rewrite (valid_fx_deps_first_failure layers i deps Hi Hbefore).
    rewrite valid_fx_deps_cons. by rewrite decide_True.
  - intros i deps Hi Hbefore Hex Hval.
    rewrite (valid_fx_deps_first_failure layers i deps Hi Hbefore).
    rewrite valid_fx_deps_cons.
    rewrite decide_False by (intros [? ?]; destruct Hex; congruence).
    by rewrite decide_True.
  - intros k deps Hpass Hk Hbefore Hval.
    rewrite (valid_fx_deps_all_pass layers Hpass).
    destruct (split_at_index additional k deps Hk) as [Hsplit Hlen].
    rewrite Hsplit, fmap_app, fmap_cons.
    rewrite valid_additional_passing.
    + simpl. by rewrite Hval.
    + intros j d Hj. apply lookup_take_Some in Hj as [Hj Hlt].
      by apply (Hbefore j).
  - intros Hpass Haddpass.
    rewrite (valid_fx_deps_all_pass layers Hpass).
    rewrite <- (app_nil_r (Some <$> additional)).
    by rewrite valid_additional_passing.
Qed.

Lemma valid_fail_fast_witness :
  valid broken_resolver "stale"
  = Some (false,
          "A fatal error was encountered, missing dependencies manifest at: shared/Mid/Mid.deps.json").
Proof.
  refine (proj1 (valid_fail_fast broken_resolver broken_layers
                   [malformed_manifest "extra/Extra.deps.json"] "stale"
                   eq_refl eq_refl)
            1 (absent_manifest "shared/Mid/Mid.deps.json") eq_refl _ _ eq_refl).
  - intros j d Hj Hd. destruct j as [|j]; [|lia].
    inversion Hd; subst d. split; [by left|reflexivity].
  - lia.
Defined.



(** ** Claims about the constructor *)

Section construction_properties.
Context {pal : Pal} {loader : Loader}.
Context (args : arguments_t) (fxs : list fx_definition_t).
Context (supplied : option rid_fallback_graph_t).

Lemma deps_file_at_in_range (i : nat) :
  i < length fxs → is_Some (deps_file_at args fxs i).
Proof.
  intros Hi. unfold deps_file_at. case_decide; [by eexists|].
  destruct (lookup_lt_is_Some_2 fxs i Hi) as [fx ->]. by eexists.
Qed.

Lemma ctor_invariant_start :
  ctor_invariant args fxs supplied (length fxs)
    {| cs_fx_deps := replicate (length fxs) None; cs_graph := supplied |}.
Proof.
  split; [|split]; simpl.
  - apply length_replicate.
  - intros i Hi. lia.
  - by rewrite decide_True.
Qed.

(** One iteration keeps the invariant, and reads nothing out of range. *)
Lemma ctor_body_invariant (i : nat) (st : ctor_state) :
  S i ≤ length fxs →
  ctor_invariant args fxs supplied (S i) st →
  ∃ st', ctor_body args fxs (Z.of_nat (length fxs) - 1) i st = Some st'
         ∧ ctor_invariant args fxs supplied i st'.
Proof.
  intros Hle (Hlen & Hdone & Hgraph). unfold ctor_body.
  destruct (deps_file_at_in_range i) as [deps_file Hfile]; [lia|].
  rewrite Hfile. simpl.
  assert (i < length (cs_fx_deps st)) as Hi by lia.
  destruct (bool_decide (cs_graph st = None)
            && bool_decide (Z.of_nat i = (Z.of_nat (length fxs) - 1)%Z)) eqn:Htest.
  - apply andb_true_iff in Htest as [Hnone Hlow].
    apply bool_decide_eq_true in Hnone, Hlow.
    assert (i = length fxs - 1) as Hroot by lia.
    assert (S i = length fxs) as Hfirst by lia.
    rewrite decide_True in Hgraph by done.
    assert (supplied = None) as Hsupplied by congruence.
    replace (Z.to_nat (Z.of_nat (length fxs) - 1)) with i by lia.
    rewrite list_lookup_insert_eq by done. simpl.
    eexists. split; [done|].
    assert (graph_in_force args fxs supplied
            = file_rid_fallback_graph (read_deps_file deps_file)) as Hforce.
    { unfold graph_in_force. by rewrite Hsupplied, <- Hroot, Hfile. }
    split; [|split]; simpl.
    + by rewrite length_insert.
    + intros j Hj. assert (j = i) as -> by lia.
      rewrite list_lookup_insert_eq by done.
      eexists. split; [done|]. simpl. by rewrite Hsupplied in Hforce |- *.
    + rewrite decide_False by lia. by rewrite Hforce.
  - eexists. split; [done|].
    assert (cs_graph st = Some (graph_in_force args fxs supplied)) as Hg.
    { destruct (decide (S i = length fxs)) as [Hfirst|Hlater]; [|done].
      apply andb_false_iff in Htest as [Hsome|Hlow].
      - apply bool_decide_eq_false in Hsome. rewrite Hgraph in Hsome |- *.
        by destruct supplied.
      - apply bool_decide_eq_false in Hlow. lia. }
    split; [|split]; simpl.
    + by rewrite length_insert.
    + intros j Hj. destruct (decide (j = i)) as [->|Hne].
      * rewrite list_lookup_insert_eq by done.
        eexists. split; [done|]. simpl. by rewrite Hg.
      * rewrite list_lookup_insert_ne by done. apply Hdone. lia.
    + rewrite decide_False by lia. done.
Qed.

(** The loop ends, with every index done. *)
Lemma ctor_loop_invariant (k : nat) (st : ctor_state) :
  k ≤ length fxs →
  ctor_invariant args fxs supplied k st →
  ∃ st', ctor_loop args fxs (Z.of_nat (length fxs) - 1) k st = Some st'
         ∧ ctor_invariant args fxs supplied 0 st'.
Proof.
  revert st. induction k as [|i IH]; intros st Hle Hinv.
  - by exists st.
  - destruct (ctor_body_invariant i st Hle Hinv) as (st1 & Hbody & Hinv1).
    destruct (IH st1) as (st' & Hloop & Hinv'); [lia|done|].
    exists st'. split; [|done]. simpl. by rewrite Hbody.
Qed.
End construction_properties.

Lemma owned_slots {A} (slots : list (option A)) :
  (∀ i, i < length slots → ∃ x, slots !! i = Some (Some x)) →
  ∃ xs, slots = Some <$> xs.
Proof.
  induction slots as [|slot slots IH]; intros Hall; [by exists []|].
  destruct (Hall 0) as [x Hx]; [simpl; lia|]. simpl in Hx.
  inversion Hx; subst slot.
  destruct IH as [xs ->].
  { intros i Hi. apply (Hall (S i)). simpl. lia. }
  by exists (x :: xs).
Qed.

(** The constructor leaves no null pointer in [m_fx_deps]: the resolvers it
    builds are the ones [valid] is defined on, as far as the layers go. *)
Lemma constructor_fills_slots `{Pal} `{Loader} (args : arguments_t)
    (fxs : list fx_definition_t) (supplied : option rid_fallback_graph_t)
    (is_framework_dependent : bool) (r : deps_resolver_t) :
  new_deps_resolver_t args fxs supplied is_framework_dependent = Some r →
  ∃ layers, m_fx_deps r = Some <$> layers ∧ length layers = length fxs.
Proof.
  destruct (ctor_loop_invariant args fxs supplied (length fxs)
              {| cs_fx_deps := replicate (length fxs) None;
                 cs_graph := supplied |})
    as (st & Hloop & Hlen & Hdone & _);
    [done|apply ctor_invariant_start|].
  unfold new_deps_resolver_t.
  replace (Z.to_nat (Z.of_nat (length fxs) - 1 + 1)) with (length fxs) by lia.
  rewrite Hloop. simpl. destruct (setup_probe_config args) as [probes checks].
  intros [= <-]. simpl.
  destruct (owned_slots (cs_fx_deps st)) as [layers Hlayers].
  { intros i Hi. destruct (Hdone i) as (deps & Hdeps & _); [lia|]. by exists deps. }
  exists layers. split; [done|].
  by rewrite <- Hlen, Hlayers, length_fmap.
Qed.

(** ** The walks of the resolver engine *)

Section walks.
Context {pal : Pal}.
Context (r : deps_resolver_t) (o : oracle_t).

Lemma dirs_steps_app kind (s1 s2 : list walk_step) (st : dirs_state) :
  dirs_steps r o kind (s1 ++ s2) st =
    match dirs_steps r o kind s1 st with
    | inl err => inl err
    | inr st' => dirs_steps r o kind s2 st'
    end.
Proof.
  revert st. induction s1 as [|[[dir lvl] entry] s1 IH]; intros st; [done|].
  simpl. by destruct (dirs_entry r o kind dir lvl entry st).
Qed.

Lemma dirs_entries_steps kind dir lvl (entries : list deps_entry_t) st :
  dirs_entries r o kind dir lvl entries st
  = dirs_steps r o kind ((λ entry, (dir, lvl, entry)) <$> entries) st.
Proof.
  revert st. induction entries as [|entry entries IH]; intros st; [done|].
  simpl. by destruct (dirs_entry r o kind dir lvl entry st).
Qed.

Lemma dirs_layers_steps kind lvl (layers : list layer_t) st :
  dirs_layers r o kind lvl layers st
  = dirs_steps r o kind (stack_steps kind lvl layers) st.
Proof.
  revert lvl st. induction layers as [|layer layers IH]; intros lvl st; [done|].
  simpl. rewrite dirs_steps_app, dirs_entries_steps. unfold layer_steps.
  by destruct (dirs_steps r o kind _ st).
Qed.

End walks.

(** ** Lists *)

Lemma filter_none {A} (P : A → Prop) `{∀ x, Decision (P x)} (l : list A) :
  (∀ y, y ∈ l → ¬ P y) → filter P l = [].
Proof.
  induction l as [|a l IH]; intros Hnone; [done|].
  rewrite filter_cons_False by (apply Hnone; by left).
  apply IH. intros y Hy. apply Hnone. by right.
Qed.

Lemma filter_all {A} (P : A → Prop) `{∀ x, Decision (P x)} (l : list A) :
  (∀ y, y ∈ l → P y) → filter P l = l.
Proof.
  induction l as [|a l IH]; intros Hall; [done|].
  rewrite filter_cons_True by (apply Hall; by left).
  f_equal. apply IH. intros y Hy. apply Hall. by right.
Qed.

Lemma omap_fmap_compose {A B C} (g : A → B) (f : B → option C) (l : list A) :
  omap f (g <$> l) = omap (f ∘ g) l.
Proof.
  induction l as [|a l IH]; [done|]. csimpl. by rewrite IH.
Qed.

(** In a list without two elements of the same key, the elements of the
    key of [x] are [x] alone. *)
Lemma filter_unique_key {A B} `{EqDecision B} (f : A → B) (l : list A) (x : A) :
  NoDup (f <$> l) → x ∈ l → filter (λ y, f y = f x) l = [x].
Proof.
  induction l as [|a l IH]; intros Hnodup Hx; [by inversion Hx|].
  rewrite fmap_cons in Hnodup. apply NoDup_cons in Hnodup as [Hfresh Hnodup].
  assert (∀ y, y ∈ l → f y ≠ f a) as Hother.
  { intros y Hy Heq. apply Hfresh. rewrite <- Heq.
    apply list_elem_of_fmap. by exists y. }
  apply elem_of_cons in Hx as [->|Hx].
  - rewrite filter_cons_True by done. f_equal. by apply filter_none.
  - rewrite filter_cons_False; [by apply IH|].
    intros Heq. by apply (Hother x).
Qed.

Section walk_order.
Context {pal : Pal}.

Lemma elem_of_layer_steps kind lvl layer (s : walk_step) :
  s ∈ layer_steps kind lvl layer ↔
  ∃ entry, entry ∈ get_entries (layer_deps layer) kind
           ∧ s = (layer_dir layer, lvl, entry).
Proof.
  unfold layer_steps. rewrite list_elem_of_fmap. naive_solver.
Qed.

(** A step of the walk comes from a layer of the stack. *)
Lemma elem_of_stack_steps kind lvl (layers : list layer_t) (s : walk_step) :
  s ∈ stack_steps kind lvl layers ↔
  ∃ i layer, layers !! i = Some layer ∧ s ∈ layer_steps kind (lvl + i) layer.
Proof.
  revert lvl. induction layers as [|layer layers IH]; intros lvl; simpl.
  - split; [by intros ?%elem_of_nil|]. intros (i & l & Hl & _).
    by rewrite lookup_nil in Hl.
  - rewrite elem_of_app, IH. split.
    + intros [Hs|(i & l & Hl & Hs)].
      * exists 0, layer. by rewrite Nat.add_0_r.
      * exists (S i), l. split; [done|].
        by replace (lvl + S i) with (S lvl + i) by lia.
    + intros (i & l & Hl & Hs). destruct i as [|i].
      * left. simpl in Hl. inversion Hl; subst l. by rewrite Nat.add_0_r in Hs.
      * right. exists i, l. split; [done|].
        by replace (S lvl + i) with (lvl + S i) by lia.
Qed.

End walk_order.

(** ** Claims about the probe-directory list *)

Lemma elem_of_first_seen (l : list string) (x : string) :
  x ∈ first_seen l ↔ x ∈ l.
Proof.
  induction l as [|a l IH]; [done|]. simpl.
  rewrite !elem_of_cons, list_elem_of_filter, IH.
  destruct (decide (x = a)); naive_solver.
Qed.

Lemma NoDup_first_seen (l : list string) : NoDup (first_seen l).
Proof.
  induction l as [|a l IH]; simpl; [constructor|].
  constructor; [|by apply NoDup_filter].
  rewrite list_elem_of_filter. naive_solver.
Qed.

(** The positions of two elements of a filtered list, in the list. *)
Lemma filter_positions {A} (P : A → Prop) `{∀ x, Decision (P x)} (l : list A)
    (i j : nat) (a b : A) :
  filter P l !! i = Some a → filter P l !! j = Some b → i < j →
  ∃ i' j', i' < j' ∧ l !! i' = Some a ∧ l !! j' = Some b.
Proof.
  revert i j. induction l as [|x l IH]; intros i j Hi Hj Hlt; [done|].
  destruct (decide (P x)) as [HP|HP].
  - rewrite filter_cons_True in Hi, Hj by done.
    destruct j as [|j]; [lia|]. simpl in Hj. destruct i as [|i].
    + simpl in Hi. inversion Hi; subst x.
      assert (b ∈ l) as Hb.
      { apply list_elem_of_lookup_2 in Hj.
        by apply list_elem_of_filter in Hj as [_ ?]. }
      apply list_elem_of_lookup in Hb as [j' Hj'].
      exists 0, (S j'). split; [lia|done].
    + simpl in Hi. destruct (IH i j Hi Hj) as (i' & j' & Hlt' & Hi' & Hj'); [lia|].
      exists (S i'), (S j'). split; [lia|done].
  - rewrite filter_cons_False in Hi, Hj by done.
    destruct (IH i j Hi Hj Hlt) as (i' & j' & Hlt' & Hi' & Hj').
    exists (S i'), (S j'). split; [lia|done].
Qed.

(** First-seen order: an element that comes before another in
    [first_seen l] occurs in [l] before every occurrence of the other. *)
Lemma first_seen_order (l : list string) (i j : nat) (d1 d2 : string) :
  first_seen l !! i = Some d1 → first_seen l !! j = Some d2 → i < j →
  ∃ k, l !! k = Some d1 ∧ ∀ k', l !! k' = Some d2 → k < k'.
Proof.
  revert i j. induction l as [|x l IH]; intros i j Hi Hj Hlt; [done|].
  simpl in Hi, Hj. destruct j as [|j]; [lia|]. simpl in Hj.
  assert (d2 ≠ x) as Hd2.
  { apply list_elem_of_lookup_2 in Hj. by apply list_elem_of_filter in Hj as [? _]. }
  destruct i as [|i].
  - simpl in Hi. inversion Hi; subst x. exists 0. split; [done|].
    intros [|k'] Hk'; [|lia]. simpl in Hk'. congruence.
  - simpl in Hi.
    destruct (filter_positions _ _ _ _ _ _ Hi Hj) as (i' & j' & Hlt' & Hi' & Hj');
      [lia|].
    destruct (IH i' j' Hi' Hj' Hlt') as (k & Hk & Hfirst).
    exists (S k). split; [done|].
    intros [|k'] Hk'; simpl in Hk'; [congruence|].
    apply Hfirst in Hk'. lia.
Qed.

(** Adding the directories one by one, each unless the output has it, gives
    the first occurrences that the output did not have. *)
Lemma foldl_add_unseen (dirs seen : list string) :
  foldl add_unseen dirs seen
  = dirs ++ filter (λ d, d ∉ dirs) (first_seen seen).
Proof.
  revert dirs. induction seen as [|x seen IH]; intros dirs; simpl.
  - by rewrite app_nil_r.
  - rewrite IH. unfold add_unseen. case_decide as Hx.
    + rewrite filter_cons_False by (by intros ?). f_equal.
      rewrite list_filter_filter. apply list_filter_iff.
      intros d. split; [|naive_solver]. intros Hd. split; [done|].
      by intros ->.
    + rewrite filter_cons_True by done. rewrite <- app_assoc. simpl.
      do 2 f_equal. rewrite list_filter_filter. apply list_filter_iff.
      intros d. rewrite elem_of_app, list_elem_of_singleton. naive_solver.
Qed.

Section probe_dirs.
Context {pal : Pal}.
Context (r : deps_resolver_t) (o : oracle_t) (kind : asset_types.t).

Lemma seen_directories_steps lvl (layers : list layer_t) :
  seen_directories r o kind lvl layers
  = omap (step_directory r o kind) (stack_steps kind lvl layers).
Proof.
  revert lvl. induction layers as [|layer layers IH]; intros lvl; [done|].
  simpl. rewrite omap_app, IH. f_equal.
  unfold layer_steps. by rewrite omap_fmap_compose.
Qed.

(** The output of a walk that succeeds. *)
Lemma dirs_steps_output (steps : list walk_step) (st st' : dirs_state) :
  dirs_steps r o kind steps st = inr st' →
  st'.1 = foldl add_unseen st.1 (omap (step_directory r o kind) steps).
Proof.
  revert st. induction steps as [|[[dir lvl] entry] steps IH]; intros st Hwalk.
  - by inversion Hwalk.
  - simpl in Hwalk. unfold dirs_entry in Hwalk. csimpl.
    unfold step_directory at 1, entry_directory. simpl.
    destruct (probe_deps_entry r o entry dir lvl) as [[path ib]|]; [|done].
    simpl. by rewrite (IH _ Hwalk).
Qed.
End probe_dirs.

(** C7: the probe-directory list of [resolve_probe_dirs] is the list of
    the first occurrences of the directories that the entries resolve to, in
    the order of the walk. A directory is in it once; two entries of one
    layer that resolve to the same directory contribute it exactly once; and
    a directory that comes before another in the output was seen before
    every occurrence of the other. *)
Theorem probe_dirs_deduplicated {pal : Pal} (r : deps_resolver_t) (o : oracle_t)
    (kind : asset_types.t) (breadcrumb breadcrumb' : gset string)
    (dirs : list string) :
  resolve_probe_dirs r o kind breadcrumb = inr (dirs, breadcrumb') →
  dirs = first_seen (seen_directories r o kind 0 (layer_stack r))
  ∧ NoDup dirs
  ∧ (∀ lvl layer e1 e2 d,
       layer_stack r !! lvl = Some layer →
       e1 ∈ get_entries (layer_deps layer) kind →
       e2 ∈ get_entries (layer_deps layer) kind →
       entry_directory r o kind (layer_dir layer) lvl e1 = Some d →
       entry_directory r o kind (layer_dir layer) lvl e2 = Some d →
       filter (λ x, x = d) dirs = [d])
  ∧ (∀ i j d1 d2,
       dirs !! i = Some d1 → dirs !! j = Some d2 → i < j →
       ∃ k, seen_directories r o kind 0 (layer_stack r) !! k = Some d1
            ∧ ∀ k', seen_directories r o kind 0 (layer_stack r) !! k' = Some d2 →
                    k < k').
Proof.
  intros Hwalk. unfold resolve_probe_dirs in Hwalk.
  rewrite dirs_layers_steps in Hwalk.
  apply dirs_steps_output in Hwalk. simpl in Hwalk.
  rewrite foldl_add_unseen, <- seen_directories_steps in Hwalk. simpl in Hwalk.
  assert (dirs = first_seen (seen_directories r o kind 0 (layer_stack r)))
    as Hdirs.
  { rewrite Hwalk. apply filter_all. intros d _. apply not_elem_of_nil. }
  clear Hwalk. split_and!.
  - done.
  - rewrite Hdirs. apply NoDup_first_seen.
  - intros lvl layer e1 e2 d Hlayer He1 _ Hd1 _.
    assert (d ∈ dirs) as Hd.
    { rewrite Hdirs. apply elem_of_first_seen.
      rewrite seen_directories_steps. apply list_elem_of_omap.
      exists (layer_dir layer, lvl, e1). split; [|done].
      apply elem_of_stack_steps. exists lvl, layer. split; [done|].
      apply elem_of_layer_steps. by exists e1. }
    rewrite <- (filter_unique_key id dirs d); [done| |done].
    rewrite list_fmap_id, Hdirs. apply NoDup_first_seen.
  - intros i j d1 d2 Hi Hj Hlt. rewrite Hdirs in Hi, Hj.
    by apply (first_seen_order _ i j).
Qed.

Lemma probe_dirs_deduplicated_witness :
  ["app/native"]
  = first_seen (@seen_directories unix_pal example_resolver full_disk asset_types.native 0
                  (layer_stack example_resolver)).
Proof.
  apply (@probe_dirs_deduplicated unix_pal example_resolver full_disk asset_types.native
           ∅ ({["b"]} ∪ ({["a"]} ∪ ∅)) ["app/native"]).
  reflexivity.
Defined.

(** ** The constructor, slot by slot *)

Section closed_form_properties.
Context {pal : Pal} {loader : Loader}.
Context (args : arguments_t) (fxs : list fx_definition_t).
Context (supplied : option rid_fallback_graph_t).

Lemma ctor_closed_form_start :
  ctor_closed_form args fxs supplied (length fxs)
    {| cs_fx_deps := replicate (length fxs) None; cs_graph := supplied |}.
Proof.
  split_and!; simpl.
  - apply length_replicate.
  - intros j Hj. lia.
  - by rewrite decide_True.
Qed.

Lemma ctor_body_closed_form (i : nat) (st : ctor_state) :
  S i ≤ length fxs →
  ctor_closed_form args fxs supplied (S i) st →
  ∃ st', ctor_body args fxs (Z.of_nat (length fxs) - 1) i st = Some st'
         ∧ ctor_closed_form args fxs supplied i st'.
Proof.
  intros Hle (Hlen & Hdone & Hgraph). unfold ctor_body.
  destruct (deps_file_at_in_range args fxs i) as [deps_file Hfile]; [lia|].
  rewrite Hfile. simpl.
  assert (i < length (cs_fx_deps st)) as Hi by lia.
  destruct (bool_decide (cs_graph st = None)
            && bool_decide (Z.of_nat i = (Z.of_nat (length fxs) - 1)%Z)) eqn:Htest.
  - apply andb_true_iff in Htest as [Hnone Hlow].
    apply bool_decide_eq_true in Hnone, Hlow.
    assert (i = length fxs - 1) as Hroot by lia.
    rewrite decide_True in Hgraph by lia.
    assert (supplied = None) as Hsupplied by congruence.
    replace (Z.to_nat (Z.of_nat (length fxs) - 1)) with i by lia.
    rewrite list_lookup_insert_eq by done. simpl.
    eexists. split; [done|].
    split_and!; simpl.
    + by rewrite length_insert.
    + intros j Hj. assert (j = i) as -> by lia.
      exists deps_file. split; [done|].
      rewrite list_lookup_insert_eq by done.
      rewrite Hsupplied. rewrite !bool_decide_eq_true_2 by done. done.
    + rewrite decide_False by lia. unfold graph_in_force.
      by rewrite Hsupplied, <- Hroot, Hfile.
  - eexists. split; [done|].
    assert (cs_graph st = Some (graph_in_force args fxs supplied)
            ∧ (bool_decide (supplied = None)
               && bool_decide (i = length fxs - 1)) = false) as [Hg Hclosed].
    { destruct (decide (S i = length fxs)) as [Hfirst|Hlater].
      - apply andb_false_iff in Htest as [Hsome|Hlow].
        + apply bool_decide_eq_false in Hsome. rewrite Hgraph in Hsome |- *.
          destruct supplied as [g|]; [|done]. split; [done|].
          by rewrite bool_decide_eq_false_2.
        + apply bool_decide_eq_false in Hlow. lia.
      - split; [done|]. apply andb_false_iff. right.
        apply bool_decide_eq_false. lia. }
    split_and!; simpl.
    + by rewrite length_insert.
    + intros j Hj. destruct (decide (j = i)) as [->|Hne].
      * exists deps_file. split; [done|].
        rewrite list_lookup_insert_eq by done. by rewrite Hclosed, Hg.
      * rewrite list_lookup_insert_ne by done. apply Hdone. lia.
    + rewrite decide_False by lia. done.
Qed.

Lemma ctor_loop_closed_form (k : nat) (st : ctor_state) :
  k ≤ length fxs →
  ctor_closed_form args fxs supplied k st →
  ∃ st', ctor_loop args fxs (Z.of_nat (length fxs) - 1) k st = Some st'
         ∧ ctor_closed_form args fxs supplied 0 st'.
Proof.
  revert st. induction k as [|i IH]; intros st Hle Hinv.
  - by exists st.
  - destruct (ctor_body_closed_form i st Hle Hinv) as (st1 & Hbody & Hinv1).
    destruct (IH st1) as (st' & Hloop & Hinv'); [lia|done|].
    exists st'. split; [|done]. simpl. by rewrite Hbody.
Qed.

(** The resolver the constructor returns, field by field. *)
Lemma constructed_resolver (is_fd : bool) (r : deps_resolver_t) :
  new_deps_resolver_t args fxs supplied is_fd = Some r →
  m_fx_definitions r = fxs
  ∧ m_app_dir r = app_root args
  ∧ m_host_mode r = host_mode args
  ∧ m_is_framework_dependent r = is_fd
  ∧ length (m_fx_deps r) = length fxs
  ∧ (∀ j, j < length fxs →
       ∃ file,
         deps_file_at args fxs j = Some file
         ∧ m_fx_deps r !! j =
             Some (Some
               (if bool_decide (supplied = None)
                   && bool_decide (j = length fxs - 1)
                then new_deps_json_t false file None
                else new_deps_json_t true file
                       (Some (graph_in_force args fxs supplied)))))
  ∧ m_additional_deps r =
      resolve_additional_deps (additional_deps_serialized args)
        (if decide (0 = length fxs) then supplied
         else Some (graph_in_force args fxs supplied)).
Proof.
  destruct (ctor_loop_closed_form (length fxs)
              {| cs_fx_deps := replicate (length fxs) None;
                 cs_graph := supplied |})
    as (st & Hloop & Hlen & Hdone & Hgraph);
    [done|apply ctor_closed_form_start|].
  unfold new_deps_resolver_t.
  replace (Z.to_nat (Z.of_nat (length fxs) - 1 + 1)) with (length fxs) by lia.
  rewrite Hloop. simpl. destruct (setup_probe_config args) as [probes checks].
  intros [= <-]. simpl. split_and!; try done.
  - intros j Hj. apply Hdone. lia.
  - by rewrite Hgraph.
Qed.

(** A slot of the constructed resolver is within the layers. *)
Lemma constructed_slot_in_range (is_fd : bool) (r : deps_resolver_t)
    (i : nat) (slot : option deps_json_t) :
  new_deps_resolver_t args fxs supplied is_fd = Some r →
  m_fx_deps r !! i = Some slot → i < length fxs.
Proof.
  intros Hnew Hslot.
  destruct (constructed_resolver is_fd r Hnew) as (_ & _ & _ & _ & Hlen & _).
  rewrite <- Hlen. by eapply lookup_lt_Some.
Qed.
End closed_form_properties.

(** The constructor always returns a resolver. *)
Lemma constructor_returns {pal : Pal} {loader : Loader} (args : arguments_t)
    (fxs : list fx_definition_t) (supplied : option rid_fallback_graph_t)
    (is_fd : bool) :
  is_Some (new_deps_resolver_t args fxs supplied is_fd).
Proof.
  destruct (ctor_loop_closed_form args fxs supplied (length fxs)
              {| cs_fx_deps := replicate (length fxs) None;
                 cs_graph := supplied |})
    as (st & Hloop & _); [done|apply ctor_closed_form_start|].
  unfold new_deps_resolver_t.
  replace (Z.to_nat (Z.of_nat (length fxs) - 1 + 1)) with (length fxs) by lia.
  rewrite Hloop. simpl. destruct (setup_probe_config args). by eexists.
Qed.

(** ** Claims about the constructor: the RID fallback list *)

(** C2: the constructor returns a resolver with one manifest object per
    layer, the one at index [i] loaded from the manifest file of layer [i].
    When an RID fallback list is supplied, every manifest, the root's too,
    is made with the supplied list and uses it. When none is supplied, the
    manifest of the root framework (the last index, loaded from the root
    framework's manifest file) is made with no list and uses the list of
    that file; every other manifest is made with the root's list, and every
    manifest uses it. *)
Theorem rid_fallback_propagation {pal : Pal} {loader : Loader}
    (args : arguments_t) (fxs : list fx_definition_t)
    (supplied : option rid_fallback_graph_t) (is_framework_dependent : bool) :
  ∃ r,
    new_deps_resolver_t args fxs supplied is_framework_dependent = Some r
    ∧ length (m_fx_deps r) = length fxs
    ∧ (∀ i, i < length fxs →
         ∃ file deps,
           deps_file_at args fxs i = Some file
           ∧ m_fx_deps r !! i = Some (Some deps)
           ∧ get_deps_file deps = file)
    ∧ (∀ g, supplied = Some g →
         (∀ i, i < length fxs →
            ∃ file,
              deps_file_at args fxs i = Some file
              ∧ m_fx_deps r !! i
                = Some (Some (new_deps_json_t true file (Some g))))
         ∧ ∀ i deps, m_fx_deps r !! i = Some (Some deps) →
                     get_rid_fallback_graph deps = g)
    ∧ (supplied = None →
       fxs ≠ [] →
       ∃ root_file,
         deps_file_at args fxs (length fxs - 1) = Some root_file
         ∧ get_root_deps r = Some (new_deps_json_t false root_file None)
         ∧ m_fx_deps r !! (length fxs - 1)
           = Some (Some (new_deps_json_t false root_file None))
         ∧ (∀ i, i < length fxs - 1 →
              ∃ file,
                deps_file_at args fxs i = Some file
                ∧ m_fx_deps r !! i
                  = Some (Some (new_deps_json_t true file
                                  (Some (file_rid_fallback_graph
                                           (read_deps_file root_file))))))
         ∧ ∀ i deps, m_fx_deps r !! i = Some (Some deps) →
                     get_rid_fallback_graph deps
                     = file_rid_fallback_graph (read_deps_file root_file)).
Proof.
  destruct (constructor_returns args fxs supplied is_framework_dependent)
    as [r Hnew].
  exists r. split; [done|].
  destruct (constructed_resolver args fxs supplied is_framework_dependent r Hnew)
    as (Hdefs & _ & _ & _ & Hlen & Hslots & _).
  assert (∀ i slot, m_fx_deps r !! i = Some slot → i < length fxs) as Hrange.
  { intros i slot Hslot. rewrite <- Hlen. by eapply lookup_lt_Some. }
  split_and!.
  - done.
  - intros i Hi. destruct (Hslots i Hi) as (file & Hfile & Hslot).
    eexists file, _. split; [done|]. split; [done|]. by destruct (_ && _).
  - intros g ->.
    assert (∀ i, i < length fxs →
              ∃ file,
                deps_file_at args fxs i = Some file
                ∧ m_fx_deps r !! i
                  = Some (Some (new_deps_json_t true file (Some g)))) as Hmade.
    { intros i Hi. destruct (Hslots i Hi) as (file & Hfile & Hslot).
      exists file. split; [done|]. by rewrite Hslot. }
    split; [done|]. intros i deps Hslot.
    destruct (Hmade i (Hrange _ _ Hslot)) as (file & _ & Hmadei).
    rewrite Hslot in Hmadei. by inversion Hmadei.
  - intros -> Hne.
    assert (0 < length fxs) as Hpos by (destruct fxs; [done|simpl; lia]).
    destruct (Hslots (length fxs - 1)) as (root_file & Hroot_file & Hroot);
      [lia|].
    rewrite !bool_decide_eq_true_2 in Hroot by done. simpl in Hroot.
    assert (graph_in_force args fxs None
            = file_rid_fallback_graph (read_deps_file root_file)) as Hforce.
    { unfold graph_in_force. by rewrite Hroot_file. }
    assert (∀ i, i < length fxs - 1 →
              ∃ file,
                deps_file_at args fxs i = Some file
                ∧ m_fx_deps r !! i
                  = Some (Some (new_deps_json_t true file
                                  (Some (file_rid_fallback_graph
                                           (read_deps_file root_file))))))
      as Hothers.
    { intros i Hi. destruct (Hslots i) as (file & Hfile & Hslot); [lia|].
      exists file. split; [done|]. rewrite Hslot, Hforce.
      rewrite (bool_decide_eq_false_2 (i = length fxs - 1)) by lia.
      by rewrite andb_false_r. }
    exists root_file. split_and!; try done.
    + unfold get_root_deps. by rewrite Hdefs, Hroot.
    + intros i deps Hslot.
      destruct (decide (i = length fxs - 1)) as [->|Hother].
      * rewrite Hslot in Hroot. by inversion Hroot.
      * destruct (Hothers i) as (file & _ & Hmade).
        { pose proof (Hrange _ _ Hslot). lia. }
        rewrite Hslot in Hmade. by inversion Hmade.
Qed.

(** In the example no list is supplied: the root is the manifest of
    shared/Fx/Fx.deps.json, and the application's manifest uses the list of
    that file. *)
Lemma rid_fallback_propagation_witness :
  ∃ r,
    @new_deps_resolver_t unix_pal example_loader example_args
      example_fx_definitions None true = Some r
    ∧ @get_root_deps r
      = Some (@new_deps_json_t example_loader false "shared/Fx/Fx.deps.json" None)
    ∧ ∀ i deps, m_fx_deps r !! i = Some (Some deps) →
                get_rid_fallback_graph deps
                = [("linux-x64", ["linux"; "unix"; "any"])].
Proof.
  destruct (@rid_fallback_propagation unix_pal example_loader example_args
              example_fx_definitions None true)
    as (r & Hnew & _ & _ & _ & Hnone).
  destruct (Hnone eq_refl ltac:(discriminate))
    as (root_file & Hroot_file & Hroot & _ & _ & Hall).
  assert (root_file = "shared/Fx/Fx.deps.json") as ->.
  { vm_compute in Hroot_file. by inversion Hroot_file. }
  exists r. split; [done|]. split; [done|].
  intros i deps Hslot. by rewrite (Hall i deps Hslot).
Defined.

(** ** More about the constructor *)

(** X1: the constructor loads the application layer (index 0) from the
    caller's manifest path, and every framework layer from
    [<dir>/<name>.deps.json] as [get_fx_deps] builds it. *)
Theorem constructed_manifest_files {pal : Pal} {loader : Loader}
    (args : arguments_t) (fxs : list fx_definition_t)
    (supplied : option rid_fallback_graph_t) (is_fd : bool)
    (r : deps_resolver_t) (i : nat) (deps : deps_json_t) :
  new_deps_resolver_t args fxs supplied is_fd = Some r →
  m_fx_deps r !! i = Some (Some deps) →
  (i = 0 → get_deps_file deps = deps_path args)
  ∧ (i ≠ 0 →
     ∃ fx, fxs !! i = Some fx
           ∧ get_deps_file deps = get_fx_deps (get_dir fx) (get_name fx)).
Proof.
  intros Hnew Hslot.
  pose proof (constructed_slot_in_range _ _ _ _ _ _ _ Hnew Hslot) as Hi.
  destruct (constructed_resolver args fxs supplied is_fd r Hnew)
    as (_ & _ & _ & _ & _ & Hslots & _).
  destruct (Hslots i Hi) as (file & Hfile & Hdeps).
  rewrite Hslot in Hdeps.
  assert (get_deps_file deps = file) as ->.
  { inversion Hdeps as [Heq]. by destruct (_ && _). }
  unfold deps_file_at in Hfile. split.
  - intros ->. rewrite decide_True in Hfile by done. by inversion Hfile.
  - intros Hne. rewrite decide_False in Hfile by done.
    destruct (fxs !! i) as [fx|]; [|done]. simpl in Hfile.
    exists fx. split; [done|]. by inversion Hfile.
Qed.

Lemma constructed_manifest_files_witness :
  get_deps_file fx_manifest = "shared/Fx/Fx.deps.json".
Proof.
  destruct (@constructed_manifest_files unix_pal example_loader example_args
              example_fx_definitions None true example_resolver 1 fx_manifest
              eq_refl eq_refl) as [_ Hfx].
  destruct (Hfx ltac:(lia)) as (fx & Hlookup & ->).
  simpl in Hlookup. by inversion Hlookup.
Defined.

(** X2: a manifest is loaded as not framework-dependent exactly when it is
    the root (last index) and no RID fallback list was supplied; this does
    not depend on the constructor's own [is_framework_dependent] argument,
    which is what the accessor [is_framework_dependent] returns. *)
Theorem constructed_manifest_flags {pal : Pal} {loader : Loader}
    (args : arguments_t) (fxs : list fx_definition_t)
    (supplied : option rid_fallback_graph_t) (is_fd : bool)
    (r : deps_resolver_t) :
  new_deps_resolver_t args fxs supplied is_fd = Some r →
  is_framework_dependent r = is_fd
  ∧ ∀ i deps,
      m_fx_deps r !! i = Some (Some deps) →
      (dj_is_framework_dependent deps = false
       ↔ supplied = None ∧ i = length fxs - 1).
Proof.
  intros Hnew.
  destruct (constructed_resolver args fxs supplied is_fd r Hnew)
    as (_ & _ & _ & Hfd & _ & Hslots & _).
  split; [done|]. intros i deps Hslot.
  pose proof (constructed_slot_in_range _ _ _ _ _ _ _ Hnew Hslot) as Hi.
  destruct (Hslots i Hi) as (file & _ & Hdeps).
  rewrite Hslot in Hdeps. inversion Hdeps as [Heq]. clear Hdeps.
  destruct (bool_decide (supplied = None) && bool_decide (i = length fxs - 1))
    eqn:Htest; simpl.
  - apply andb_true_iff in Htest as [H1 H2].
    apply bool_decide_eq_true in H1, H2. done.
  - split; [done|]. intros [H1 H2].
    apply andb_false_iff in Htest as [Hf|Hf];
      apply bool_decide_eq_false in Hf; done.
Qed.

Lemma constructed_manifest_flags_witness :
  dj_is_framework_dependent fx_manifest = false
  ↔ @None rid_fallback_graph_t = None ∧ 1 = 2 - 1.
Proof.
  exact (proj2 (@constructed_manifest_flags unix_pal example_loader
                  example_args example_fx_definitions None true
                  example_resolver eq_refl) 1 fx_manifest eq_refl).
Defined.

(** X3: the additional manifests are resolved with the RID fallback list
    the layers use: the supplied list, or the root manifest's own list when
    none is supplied; with no layer at all they get what was supplied, a
    null pointer when nothing was. *)
Theorem constructed_additional_deps {pal : Pal} {loader : Loader}
    (args : arguments_t) (fxs : list fx_definition_t)
    (supplied : option rid_fallback_graph_t) (is_fd : bool)
    (r : deps_resolver_t) :
  new_deps_resolver_t args fxs supplied is_fd = Some r →
  (fxs = [] →
   m_additional_deps r
   = resolve_additional_deps (additional_deps_serialized args) supplied)
  ∧ (∀ g, supplied = Some g →
       m_additional_deps r
       = resolve_additional_deps (additional_deps_serialized args) (Some g))
  ∧ (supplied = None →
     ∀ root, get_root_deps r = Some root →
       m_additional_deps r
       = resolve_additional_deps (additional_deps_serialized args)
           (Some (get_rid_fallback_graph root))).
Proof.
  intros Hnew.
  destruct (constructed_resolver args fxs supplied is_fd r Hnew)
    as (Hdefs & _ & _ & _ & Hlen & Hslots & Hadd).
  split_and!.
  - intros ->. by rewrite Hadd.
  - intros g ->. rewrite Hadd. by case_decide.
  - intros -> root Hroot. unfold get_root_deps in Hroot. rewrite Hdefs in Hroot.
    destruct fxs as [|fx fxs'] eqn:Hfxs.
    { simpl in Hlen. destruct (m_fx_deps r); [done|by simpl in Hlen]. }
    rewrite <- Hfxs in *.
    assert (length fxs - 1 < length fxs) as Hlast by (rewrite Hfxs; simpl; lia).
    destruct (Hslots _ Hlast) as (file & Hfile & Hslot).
    rewrite Hslot in Hroot. simpl in Hroot.
    rewrite !bool_decide_eq_true_2 in Hroot by done. simpl in Hroot.
    inversion Hroot; subst root. simpl.
    rewrite Hadd. rewrite decide_False by (rewrite Hfxs; done).
    unfold graph_in_force. by rewrite Hfile.
Qed.

Lemma constructed_additional_deps_witness :
  m_additional_deps example_resolver
  = @resolve_additional_deps example_loader "" (Some example_rid_graph).
Proof.
  exact (proj2 (proj2 (@constructed_additional_deps unix_pal example_loader
                         example_args example_fx_definitions None true
                         example_resolver eq_refl))
           eq_refl fx_manifest eq_refl).
Defined.

(** X4: on a constructed resolver [get_root_deps] and [get_app_deps] are
    defined exactly when there is at least one layer; the application's
    manifest is the one of the caller's manifest path, the root's is the
    last slot, and with a single layer the two are the same manifest. *)
Theorem constructed_root_and_app_deps {pal : Pal} {loader : Loader}
    (args : arguments_t) (fxs : list fx_definition_t)
    (supplied : option rid_fallback_graph_t) (is_fd : bool)
    (r : deps_resolver_t) :
  new_deps_resolver_t args fxs supplied is_fd = Some r →
  (is_Some (get_root_deps r) ↔ fxs ≠ [])
  ∧ (is_Some (get_app_deps r) ↔ fxs ≠ [])
  ∧ (∀ app, get_app_deps r = Some app → get_deps_file app = deps_path args)
  ∧ (∀ root, get_root_deps r = Some root →
       m_fx_deps r !! (length fxs - 1) = Some (Some root))
  ∧ (length fxs = 1 → get_root_deps r = get_app_deps r).
Proof.
  intros Hnew.
  destruct (constructed_resolver args fxs supplied is_fd r Hnew)
    as (Hdefs & _ & _ & _ & Hlen & Hslots & _).
  unfold get_root_deps, get_app_deps. rewrite Hdefs.
  assert (∀ j, j < length fxs → is_Some (mjoin (m_fx_deps r !! j))) as Hsome.
  { intros j Hj. destruct (Hslots j Hj) as (file & _ & ->). by eexists. }
  assert (fxs = [] → ∀ j, mjoin (m_fx_deps r !! j) = None) as Hnone.
  { intros -> j. simpl in Hlen. by destruct (m_fx_deps r). }
  assert (fxs ≠ [] → 0 < length fxs) as Hpos.
  { destruct fxs; [done|]. simpl. lia. }
  split_and!.
  - split.
    + intros [x Hx] Hnil. by rewrite Hnone in Hx.
    + intros Hne. apply Hsome. specialize (Hpos Hne). lia.
  - split.
    + intros [x Hx] Hnil. by rewrite Hnone in Hx.
    + intros Hne. apply Hsome. by apply Hpos.
  - intros app Happ.
    destruct (decide (fxs = [])) as [Hnil|Hne]; [by rewrite Hnone in Happ|].
    destruct (Hslots 0 (Hpos Hne)) as (file & Hfile & Hslot).
    rewrite Hslot in Happ. simpl in Happ. inversion Happ; subst app.
    unfold deps_file_at in Hfile. rewrite decide_True in Hfile by done.
    inversion Hfile. by destruct (_ && _).
  - intros root Hroot.
    destruct (m_fx_deps r !! (length fxs - 1)) as [[root'|]|]; try done.
    simpl in Hroot. by inversion Hroot.
  - intros ->. done.
Qed.

Lemma constructed_root_and_app_deps_witness :
  @get_root_deps example_resolver = Some fx_manifest
  ∧ @get_app_deps example_resolver = Some app_manifest
  ∧ get_deps_file app_manifest = "app/App.deps.json".
Proof.
  split; [reflexivity|]. split; [reflexivity|].
  exact (proj1 (proj2 (proj2 (@constructed_root_and_app_deps unix_pal
                                example_loader example_args
                                example_fx_definitions None true
                                example_resolver eq_refl)))
           app_manifest eq_refl).
Defined.

(** ** More about [valid] *)

(** The first loop runs to its end only over non-null slots that pass. *)
Lemma valid_fx_deps_completed (slots : list (option deps_json_t)) (i : nat) :
  valid_fx_deps i slots = Some Completed →
  ∃ layers, slots = Some <$> layers
            ∧ ∀ j d, layers !! j = Some d → layer_passes (i + j) d.
Proof.
  revert i. induction slots as [|[deps|] slots IH]; intros i Hrun.
  - exists []. split; [done|]. intros j d Hj. by rewrite lookup_nil in Hj.
  - rewrite valid_fx_deps_cons in Hrun.
    case_decide as Hmissing; [done|]. case_decide as Hparse; [done|].
    destruct (IH (S i) Hrun) as (layers & -> & Hpass).
    exists (deps :: layers). split; [done|].
    intros [|j] d Hj; simpl in Hj.
    + inversion Hj; subst d. rewrite Nat.add_0_r.
      apply layer_passes_step. done.
    + replace (i + S j) with (S i + j) by lia. by apply Hpass.
  - done.
Qed.

Lemma valid_additional_completed (slots : list (option deps_json_t)) :
  valid_additional_deps slots = Some Completed →
  ∃ additional, slots = Some <$> additional
                ∧ ∀ j d, additional !! j = Some d → is_valid d = true.
Proof.
  induction slots as [|[deps|] slots IH]; intros Hrun.
  - exists []. split; [done|]. intros j d Hj. by rewrite lookup_nil in Hj.
  - simpl in Hrun. destruct (is_valid deps) eqn:Hvalid; [|done].
    simpl in Hrun. destruct (IH Hrun) as (additional & -> & Hpass).
    exists (deps :: additional). split; [done|].
    intros [|j] d Hj; simpl in Hj.
    + by inversion Hj; subst d.
    + by apply (Hpass j).
  - done.
Qed.

(** The manifest behind a failure of the first loop. *)
Lemma valid_fx_deps_failure (slots : list (option deps_json_t)) (i : nat)
    (e : string) :
  valid_fx_deps i slots = Some (ReturnFalse e) →
  ∃ j deps,
    slots !! j = Some (Some deps)
    ∧ ((i + j ≠ 0 ∧ exists_ deps = false
        ∧ e = missing_manifest_message +:+ get_deps_file deps)
       ∨ ((i + j = 0 ∨ exists_ deps = true) ∧ is_valid deps = false
          ∧ e = parse_error_message +:+ get_deps_file deps)).
Proof.
  revert i. induction slots as [|[deps|] slots IH]; intros i Hrun; try done.
  rewrite valid_fx_deps_cons in Hrun.
  case_decide as Hmissing.
  - exists 0, deps. split; [done|]. left. rewrite Nat.add_0_r.
    destruct Hmissing. inversion Hrun. done.
  - case_decide as Hparse.
    + exists 0, deps. split; [done|]. right. rewrite Nat.add_0_r.
      inversion Hrun. split_and!; [|done|done].
      destruct (decide (i = 0)); [by left|]. right.
      destruct (exists_ deps); [done|]. by destruct Hmissing.
    + destruct (IH (S i) Hrun) as (j & d & Hj & Hcase).
      exists (S j), d. split; [done|].
      by replace (i + S j) with (S i + j) by lia.
Qed.

Lemma valid_additional_failure (slots : list (option deps_json_t)) (e : string) :
  valid_additional_deps slots = Some (ReturnFalse e) →
  ∃ k deps,
    slots !! k = Some (Some deps)
    ∧ is_valid deps = false
    ∧ e = parse_error_message +:+ get_deps_file deps.
Proof.
  induction slots as [|[deps|] slots IH]; intros Hrun; try done.
  simpl in Hrun. destruct (is_valid deps) eqn:Hvalid; simpl in Hrun.
  - destruct (IH Hrun) as (k & d & Hk & Hcase). by exists (S k), d.
  - exists 0, deps. inversion Hrun. done.
Qed.

(** Over non-null slots the loops have an outcome. *)
Lemma valid_fx_deps_defined (layers : list deps_json_t) (i : nat) :
  is_Some (valid_fx_deps i (Some <$> layers)).
Proof.
  revert i. induction layers as [|d layers IH]; intros i; [by eexists|].
  rewrite fmap_cons, valid_fx_deps_cons. repeat case_decide; by eauto.
Qed.

Lemma valid_additional_defined (additional : list deps_json_t) :
  is_Some (valid_additional_deps (Some <$> additional)).
Proof.
  induction additional as [|d additional IH]; [by eexists|].
  simpl. destruct (negb (is_valid d)); by eauto.
Qed.

(** X5: [valid] returns true exactly when no slot of [m_fx_deps] and of
    [m_additional_deps] is null, every layer manifest other than the
    application's exists, and every manifest parsed; [errors] is then
    empty, whatever it held. *)
Theorem valid_succeeds_iff (r : deps_resolver_t) (errors : string) :
  ((∃ message, valid r errors = Some (true, message))
   ↔ ∃ layers additional,
       m_fx_deps r = Some <$> layers
       ∧ m_additional_deps r = Some <$> additional
       ∧ (∀ j d, layers !! j = Some d → layer_passes j d)
       ∧ (∀ j d, additional !! j = Some d → is_valid d = true))
  ∧ ∀ message, valid r errors = Some (true, message) → message = "".
Proof.
  split; [split|].
  - intros [message Hvalid]. unfold valid in Hvalid.
    destruct (valid_fx_deps 0 (m_fx_deps r)) as [[|e]|] eqn:Hfx; try done.
    destruct (valid_additional_deps (m_additional_deps r)) as [[|e]|] eqn:Hadd;
      try done.
    destruct (valid_fx_deps_completed _ _ Hfx) as (layers & Hlayers & Hpass).
    destruct (valid_additional_completed _ Hadd) as (additional & Hadds & Hok).
    by exists layers, additional.
  - intros (layers & additional & Hfx & Hadd & Hpass & Hok).
    exists "". unfold valid. rewrite Hfx, Hadd.
    rewrite (valid_fx_deps_all_pass layers Hpass).
    rewrite <- (app_nil_r (Some <$> additional)).
    by rewrite valid_additional_passing.
  - intros message Hvalid. unfold valid in Hvalid.
    destruct (valid_fx_deps 0 (m_fx_deps r)) as [[|e]|]; try done.
    destruct (valid_additional_deps (m_additional_deps r)) as [[|e]|];
      try done.
    by inversion Hvalid.
Qed.

(** X6: when [valid] returns false, [errors] is not empty and is one of the
    two messages followed by the path of a manifest of the resolver: a
    layer other than the application's whose file does not exist, a layer
    that exists (or is the application's) and did not parse, or an
    additional manifest that did not parse. *)
Theorem valid_failure_names_manifest (r : deps_resolver_t)
    (errors message : string) :
  valid r errors = Some (false, message) →
  message ≠ ""
  ∧ ((∃ i deps,
        m_fx_deps r !! i = Some (Some deps)
        ∧ i ≠ 0 ∧ exists_ deps = false
        ∧ message = missing_manifest_message +:+ get_deps_file deps)
     ∨ (∃ i deps,
          m_fx_deps r !! i = Some (Some deps)
          ∧ (i = 0 ∨ exists_ deps = true) ∧ is_valid deps = false
          ∧ message = parse_error_message +:+ get_deps_file deps)
     ∨ (∃ k deps,
          m_additional_deps r !! k = Some (Some deps)
          ∧ is_valid deps = false
          ∧ message = parse_error_message +:+ get_deps_file deps)).
Proof.
  intros Hvalid. unfold valid in Hvalid.
  assert ((∃ i deps,
             m_fx_deps r !! i = Some (Some deps)
             ∧ i ≠ 0 ∧ exists_ deps = false
             ∧ message = missing_manifest_message +:+ get_deps_file deps)
          ∨ (∃ i deps,
               m_fx_deps r !! i = Some (Some deps)
               ∧ (i = 0 ∨ exists_ deps = true) ∧ is_valid deps = false
               ∧ message = parse_error_message +:+ get_deps_file deps)
          ∨ (∃ k deps,
               m_additional_deps r !! k = Some (Some deps)
               ∧ is_valid deps = false
               ∧ message = parse_error_message +:+ get_deps_file deps))
    as Hcases.
  { destruct (valid_fx_deps 0 (m_fx_deps r)) as [[|e]|] eqn:Hfx; try done.
    - destruct (valid_additional_deps (m_additional_deps r)) as [[|e]|] eqn:Hadd;
        try done.
      inversion Hvalid; subst e.
      destruct (valid_additional_failure _ _ Hadd) as (k & deps & Hk & Hv & He).
      right. right. by exists k, deps.
    - inversion Hvalid; subst e.
      destruct (valid_fx_deps_failure _ _ _ Hfx)
        as (j & deps & Hj & [(Hne & Hex & He)|(Hex & Hv & He)]).
      + left. by exists j, deps.
      + right. left. by exists j, deps. }
  split; [|done].
  destruct Hcases as [(i & deps & _ & _ & _ & ->)
                     |[(i & deps & _ & _ & _ & ->)|(k & deps & _ & _ & ->)]];
    done.
Qed.

Lemma valid_failure_names_manifest_witness :
  "A fatal error was encountered, missing dependencies manifest at: shared/Mid/Mid.deps.json"
  ≠ ""
  ∧ ((∃ i deps,
        m_fx_deps broken_resolver !! i = Some (Some deps)
        ∧ i ≠ 0 ∧ exists_ deps = false
        ∧ "A fatal error was encountered, missing dependencies manifest at: shared/Mid/Mid.deps.json"
          = missing_manifest_message +:+ get_deps_file deps)
     ∨ (∃ i deps,
          m_fx_deps broken_resolver !! i = Some (Some deps)
          ∧ (i = 0 ∨ exists_ deps = true) ∧ is_valid deps = false
          ∧ "A fatal error was encountered, missing dependencies manifest at: shared/Mid/Mid.deps.json"
            = parse_error_message +:+ get_deps_file deps)
     ∨ (∃ k deps,
          m_additional_deps broken_resolver !! k = Some (Some deps)
          ∧ is_valid deps = false
          ∧ "A fatal error was encountered, missing dependencies manifest at: shared/Mid/Mid.deps.json"
            = parse_error_message +:+ get_deps_file deps)).
Proof.
  exact (valid_failure_names_manifest broken_resolver "" _ eq_refl).
Defined.

Lemma all_slots_owned {A} (slots : list (option A)) :
  (∀ slot, slot ∈ slots → is_Some slot) → ∃ xs, slots = Some <$> xs.
Proof.
  intros Hall. apply owned_slots. intros i Hi.
  destruct (lookup_lt_is_Some_2 slots i Hi) as [slot Hslot].
  destruct (Hall slot) as [x ->]; [by eapply list_elem_of_lookup_2|].
  by exists x.
Qed.

(** X7: on a constructed resolver whose additional manifests are not null,
    [valid] has a result; and when the manifest file of a framework layer
    (index above 0) is not on disk while the layers before it exist (the
    application's need not) and parse, [valid] returns false with the
    missing-manifest message followed by [<dir>/<name>.deps.json] of that
    framework. *)
Theorem valid_of_constructed {pal : Pal} {loader : Loader}
    (args : arguments_t) (fxs : list fx_definition_t)
    (supplied : option rid_fallback_graph_t) (is_fd : bool)
    (r : deps_resolver_t) (errors : string) :
  new_deps_resolver_t args fxs supplied is_fd = Some r →
  ((∀ slot, slot ∈ m_additional_deps r → is_Some slot) →
   is_Some (valid r errors))
  ∧ ∀ i fx,
      i ≠ 0 →
      fxs !! i = Some fx →
      file_present (read_deps_file (get_fx_deps (get_dir fx) (get_name fx)))
      = false →
      (∀ j file,
         j < i → deps_file_at args fxs j = Some file →
         (j = 0 ∨ file_present (read_deps_file file) = true)
         ∧ file_parses (read_deps_file file) = true) →
      valid r errors
      = Some (false,
              missing_manifest_message
              +:+ get_fx_deps (get_dir fx) (get_name fx)).
Proof.
  intros Hnew.
  destruct (constructed_resolver args fxs supplied is_fd r Hnew)
    as (_ & _ & _ & _ & Hlen & Hslots & _).
  destruct (owned_slots (m_fx_deps r)) as [layers Hlayers].
  { intros i Hi. rewrite Hlen in Hi.
    destruct (Hslots i Hi) as (file & _ & ->). by eexists. }
  assert (∀ j d, layers !! j = Some d →
            ∃ file, deps_file_at args fxs j = Some file
                    ∧ get_deps_file d = file
                    ∧ exists_ d = file_present (read_deps_file file)
                    ∧ is_valid d = file_parses (read_deps_file file))
    as Hread.
  { intros j d Hj.
    assert (m_fx_deps r !! j = Some (Some d)) as Hslot.
    { by rewrite Hlayers, list_lookup_fmap, Hj. }
    assert (j < length fxs) as Hlt.
    { rewrite <- Hlen. by eapply lookup_lt_Some. }
    destruct (Hslots j Hlt) as (file & Hfile & Hd).
    rewrite Hslot in Hd. inversion Hd as [Heq].
    exists file. split; [done|]. by destruct (_ && _). }
  split.
  - intros Hadd. destruct (all_slots_owned _ Hadd) as [additional Hadditional].
    unfold valid. rewrite Hlayers, Hadditional.
    destruct (valid_fx_deps_defined layers 0) as [[|e] ->]; [|by eexists].
    destruct (valid_additional_defined additional) as [[|e] ->]; by eexists.
  - intros i fx Hne Hfx Hmissing Hbefore.
    assert (i < length fxs) as Hlt by (by eapply lookup_lt_Some).
    destruct (Hslots i Hlt) as (file & Hfile & Hslot).
    assert (file = get_fx_deps (get_dir fx) (get_name fx)) as ->.
    { unfold deps_file_at in Hfile. rewrite decide_False in Hfile by done.
      rewrite Hfx in Hfile. by inversion Hfile. }
    destruct (layers !! i) as [deps|] eqn:Hi.
    2: { rewrite Hlayers, list_lookup_fmap, Hi in Hslot. done. }
    destruct (Hread i deps Hi) as (file & Hfile' & Hname & Hexists & _).
    assert (file = get_fx_deps (get_dir fx) (get_name fx)) as Hsame
      by congruence.
    rewrite Hsame in Hname, Hexists.
    unfold valid. rewrite Hlayers.
    rewrite (valid_fx_deps_first_failure layers i deps Hi).
    + rewrite valid_fx_deps_cons, decide_True; [by rewrite Hname|].
      split; [done|]. by rewrite Hexists.
    + intros j d Hj Hd.
      destruct (Hread j d Hd) as (filej & Hfilej & _ & Hex & Hval).
      destruct (Hbefore j filej Hj Hfilej) as [Hpresent Hparses].
      split; [|by rewrite Hval]. rewrite Hex. done.
Qed.

Lemma valid_of_constructed_witness :
  ∃ r,
    @new_deps_resolver_t unix_pal example_loader example_args
      layered_fx_definitions None true = Some r
    ∧ valid r ""
      = Some (false,
              "A fatal error was encountered, missing dependencies manifest at: shared/Mid/Mid.deps.json").
Proof.
  eexists. split; [reflexivity|].
  refine (proj2 (@valid_of_constructed unix_pal example_loader example_args
                   layered_fx_definitions None true _ "" eq_refl)
            1 {| get_name := "Mid"; get_dir := "shared/Mid" |}
            _ eq_refl eq_refl _).
  - lia.
  - intros j file Hj Hfile. assert (j = 0) as -> by lia.
    inversion Hfile; subst file. split; [by left|reflexivity].
Defined.

(** ** More about [get_app_dir] *)

(** X8: [get_app_dir] returns the empty string under libhost and in no
    other host mode. *)
Theorem get_app_dir_empty_iff_libhost {pal : Pal} (r : deps_resolver_t)
    (b : bundle_t) :
  get_app_dir r b = Some "" ↔ m_host_mode r = libhost.
Proof.
  split.
  - intros Hget. destruct (decide (m_host_mode r = libhost)) as [|Hm]; [done|].
    rewrite get_app_dir_not_libhost in Hget by done.
    destruct (back (selected_app_dir r b)); [|done].
    inversion Hget as [Hempty].
    pose proof (back_as_directory (selected_app_dir r b)) as Hback.
    by rewrite Hempty in Hback.
  - intros Hm. unfold get_app_dir. by rewrite decide_True.
Qed.

(** X9: the directory [get_app_dir] returns is stable: a resolver that has
    it as its application directory returns the same directory. *)
Theorem get_app_dir_stable {pal : Pal} (r : deps_resolver_t) (b : bundle_t)
    (p : string) :
  get_app_dir r b = Some p →
  get_app_dir (with_app_dir r p) b = Some p.
Proof.
  intros Hget.
  destruct (decide (m_host_mode r = libhost)) as [Hm|Hm].
  { unfold get_app_dir in *. simpl. by rewrite decide_True in Hget |- *. }
  rewrite get_app_dir_not_libhost in Hget by done.
  rewrite get_app_dir_not_libhost by done.
  destruct (back (selected_app_dir r b)) as [c|] eqn:Hback; [|done].
  assert (as_directory (selected_app_dir r b) = p) as Hp by congruence.
  clear Hget.
  assert (selected_app_dir (with_app_dir r p) b
          = if decide (compat_bundle_apphost r b) then extraction_path b
            else p) as -> by reflexivity.
  unfold selected_app_dir in Hback, Hp. revert Hback Hp.
  destruct (decide (compat_bundle_apphost r b)) as [Hc|Hc]; intros Hback Hp.
  - by rewrite Hback, Hp.
  - rewrite <- Hp at 1. rewrite back_as_directory. f_equal.
    rewrite <- Hp at 1. unfold as_directory at 1.
    rewrite decide_True by apply back_as_directory. done.
Qed.

Lemma get_app_dir_stable_witness :
  @get_app_dir unix_pal (with_app_dir example_resolver "app/") no_bundle
  = Some "app/".
Proof.
  apply (@get_app_dir_stable unix_pal example_resolver no_bundle "app/").
  reflexivity.
Defined.

(** X10: outside apphost the application directory of a constructed
    resolver is read from the launch arguments alone, whatever the bundle
    says: empty under libhost, undefined for an empty application root, and
    otherwise the application root as a directory path. *)
Theorem get_app_dir_of_constructed {pal : Pal} {loader : Loader}
    (args : arguments_t) (fxs : list fx_definition_t)
    (supplied : option rid_fallback_graph_t) (is_fd : bool)
    (r : deps_resolver_t) (b : bundle_t) :
  new_deps_resolver_t args fxs supplied is_fd = Some r →
  host_mode args ≠ apphost →
  get_app_dir r b =
    if decide (host_mode args = libhost) then Some ""
    else if decide (app_root args = "") then None
    else Some (as_directory (app_root args)).
Proof.
  intros Hnew Hmode.
  destruct (constructed_resolver args fxs supplied is_fd r Hnew)
    as (_ & Hdir & Hm & _).
  destruct (decide (host_mode args = libhost)) as [Hlib|Hlib].
  { unfold get_app_dir. rewrite Hm. by rewrite decide_True. }
  rewrite get_app_dir_not_libhost by (by rewrite Hm).
  unfold selected_app_dir.
  rewrite decide_False by (intros (Ha & _); congruence).
  rewrite Hdir. case_decide as Hroot.
  - by rewrite Hroot.
  - destruct (back (app_root args)) eqn:Hback; [done|].
    by apply back_None in Hback.
Qed.

Lemma get_app_dir_of_constructed_witness :
  @get_app_dir unix_pal example_resolver compat_bundle = Some "app/".
Proof.
  apply (@get_app_dir_of_constructed unix_pal example_loader example_args
           example_fx_definitions None true example_resolver compat_bundle);
    [reflexivity|discriminate].
Defined.
